(** * Stock-report pipeline: chunker, summarization client, orchestrator

    A shallow embedding of [extract_pdf.py] and [db_utils.py].  Python
    values are modelled as the code uses them: [str] as a list of Unicode
    code points, [int] as [Z], dictionaries with a fixed set of keys as
    records whose optional keys are [option] fields, the list of chunks as
    a list updated by index, and the outside world (remote endpoint, file
    system, clock, standard input) as an explicit environment and a state
    that is threaded through the calls. *)

From Stdlib Require Import ZArith NArith List Lia String Ascii Bool.
From Stdlib Require Import Floats.SpecFloat.
From stdpp Require Import base option list gmap strings.
Import ListNotations.

Local Open Scope Z_scope.

(** ** Python strings *)

Module PyStr.

Definition char := N.
Definition str := list char.

(** A literal of the source, character by character. *)
Definition lit (s : string) : str := map N_of_ascii (list_ascii_of_string s).

Definition LF : char := 10%N.

Definition len (s : str) : Z := Z.of_nat (length s).

(** [str.isspace] on one code point: the white-space table of CPython. *)
Definition isspace (c : char) : bool :=
  (((9 <=? c) && (c <=? 13)) || ((28 <=? c) && (c <=? 32))
   || (c =? 133) || (c =? 160) || (c =? 5760)
   || ((8192 <=? c) && (c <=? 8202))
   || (c =? 8232) || (c =? 8233) || (c =? 8239) || (c =? 8287)
   || (c =? 12288))%N.

Fixpoint lstrip (s : str) : str :=
  match s with
  | c :: r => if isspace c then lstrip r else s
  | [] => []
  end.

Definition rstrip (s : str) : str := rev (lstrip (rev s)).

(** [s.strip()] *)
Definition strip (s : str) : str := rstrip (lstrip s).

(** Truth value of a string: non-empty. *)
Definition truthy (s : str) : bool :=
  match s with [] => false | _ :: _ => true end.

(** Index normalisation of a slice bound: a negative bound counts from the
    end, and the result is clamped to [0, n]. *)
Definition clamp_index (n i : Z) : Z :=
  if i <? 0 then Z.max 0 (i + n) else Z.min i n.

(** [s[i:j]] *)
Definition slice (s : str) (i j : Z) : str :=
  let lo := clamp_index (len s) i in
  let hi := clamp_index (len s) j in
  take (Z.to_nat (hi - lo)) (drop (Z.to_nat lo) s).

Fixpoint is_prefix (p s : str) : bool :=
  match p, s with
  | [], _ => true
  | a :: p', b :: s' => (a =? b)%N && is_prefix p' s'
  | _ :: _, [] => false
  end.

(** Left-to-right scan of a window that starts at position [idx] of the
    whole string; [best] is the highest position found so far at which
    [sub] occurs inside the window. *)
Fixpoint last_occurrence (sub w : str) (idx best : Z) : Z :=
  match w with
  | [] => if is_prefix sub [] then idx else best
  | _ :: w' =>
      last_occurrence sub w' (idx + 1) (if is_prefix sub w then idx else best)
  end.

Definition adjust_end (n j : Z) : Z :=
  if n <? j then n else if j <? 0 then Z.max 0 (j + n) else j.

Definition adjust_start (n i : Z) : Z :=
  if i <? 0 then Z.max 0 (i + n) else i.

(** [s.rfind(sub, i, j)]: the highest index at which [sub] occurs within
    [s[i:j]], or [-1]. *)
Definition rfind (s sub : str) (i j : Z) : Z :=
  let hi := adjust_end (len s) j in
  let lo := adjust_start (len s) i in
  if hi - lo <? len sub then -1
  else last_occurrence sub
         (take (Z.to_nat (hi - lo)) (drop (Z.to_nat lo) s)) lo (-1).

(** [sub in s] *)
Fixpoint contains (sub s : str) : bool :=
  is_prefix sub s || match s with [] => false | _ :: s' => contains sub s' end.

End PyStr.

Import PyStr.

(** ** Data model *)

(** A page record as [extract_pdf] produces it and [chunk_text] reads it
    with [dict.get]: either key may be absent. *)
Record Page := mkPage {
  page_text : option str;
  page_number : option Z
}.

Record Metadata := mkMetadata {
  pages : list Z;
  source_page : Z
}.

(** The value stored under ["summary"]: whatever [summarize_with_claude]
    returned ([None] when its loop body never ran) or the error string. *)
Inductive PyVal :=
| PyNone
| PyStr (s : str).

Record Chunk := mkChunk {
  text : str;
  metadata : Metadata;
  summary : option PyVal
}.

Definition new_chunk (t : str) (page_num : Z) : Chunk :=
  {| text := t;
     metadata := {| pages := [page_num]; source_page := page_num |};
     summary := None |}.

(** ** [chunk_text] *)

Module Chunker.

(** [chunk_size * 0.2] and [int(...)] as Python computes them, on IEEE 754
    doubles: the integer is converted to the nearest double, multiplied by
    the double nearest to 0.2 and the product is truncated toward zero.
    [None] stands for the [OverflowError] of an integer too large for a
    double. *)
Module Double.

Definition prec : Z := 53.
Definition emax : Z := 1024.

Definition of_int (n : Z) : spec_float := binary_normalize prec emax n 0 false.

(** The double nearest to 0.2. *)
Definition point_two : spec_float := S754_finite false 7205759403792794 (-55).

Definition to_int (f : spec_float) : option Z :=
  match f with
  | S754_zero _ => Some 0
  | S754_finite sign m e =>
      let magnitude := if 0 <=? e then Z.pos m * 2 ^ e else Z.pos m / 2 ^ (- e) in
      Some (if sign then - magnitude else magnitude)
  | S754_infinity _ | S754_nan => None
  end.

Definition int_mul_point_two (n : Z) : option Z :=
  to_int (SFmul prec emax (of_int n) point_two).

End Double.

(** [int(chunk_size * 0.2)]: the product as computed on doubles,
    truncated toward zero.  For an integer too large for a double (of
    magnitude [2^1024] or so) Python raises [OverflowError]; the model has
    no such failure and takes the integer quotient there.  Only the
    position of the search window depends on this value. *)
Definition int_fifth (chunk_size : Z) : Z :=
  default (Z.quot chunk_size 5) (Double.int_mul_point_two chunk_size).

Definition sentence_seps : list str :=
  [lit ". "; lit "! "; lit "? "; lit "." ++ [LF]; lit "!" ++ [LF]; lit "?" ++ [LF]].

(** The [for sep in ...] loop that computes [sentence_break]. *)
Definition find_sentence_break (t : str) (search_start e : Z) : Z :=
  fold_left
    (fun sentence_break sep =>
       let pos := rfind t sep search_start e in
       if negb (pos =? -1) && ((sentence_break =? -1) || (sentence_break <? pos))
       then pos + len sep
       else sentence_break)
    sentence_seps (-1).

(** The value of [end] after the boundary search of one iteration. *)
Definition window_end (t : str) (chunk_size start : Z) : Z :=
  let e := Z.min (start + chunk_size) (len t) in
  let search_start := e - int_fifth chunk_size in
  let paragraph_break := rfind t [LF; LF] search_start e in
  if negb (paragraph_break =? -1) && (start <? paragraph_break)
  then paragraph_break + 2
  else
    let sentence_break := find_sentence_break t search_start e in
    if negb (sentence_break =? -1) && (start <? sentence_break)
    then sentence_break
    else e.

(** The chunks one iteration appends (none or one). *)
Definition emit (t : str) (page_num start e : Z) : list Chunk :=
  let chunk_text := strip (slice t start e) in
  if truthy chunk_text then [new_chunk chunk_text page_num] else [].

(** [start = max(start + 1, end - chunk_overlap)] *)
Definition next_start (t : str) (chunk_size chunk_overlap start : Z) : Z :=
  Z.max (start + 1) (window_end t chunk_size start - chunk_overlap).

(** The [while start < len(text)] loop.  [fuel] bounds the number of
    iterations; [None] means the bound was reached with the loop condition
    still true. *)
Fixpoint split_loop (fuel : nat) (t : str) (page_num chunk_size chunk_overlap : Z)
    (start : Z) : option (list Chunk) :=
  if start <? len t then
    match fuel with
    | O => None
    | S fuel' =>
        let e := window_end t chunk_size start in
        match split_loop fuel' t page_num chunk_size chunk_overlap
                (next_start t chunk_size chunk_overlap start) with
        | Some rest => Some (emit t page_num start e ++ rest)
        | None => None
        end
    end
  else Some [].

(** The body of the [for i, page_data in enumerate(extracted_pages)] loop:
    the chunks appended for the page at 0-based position [i]. *)
Definition chunk_page (i : Z) (page_data : Page) (chunk_size chunk_overlap : Z)
    : option (list Chunk) :=
  let t := default [] (page_text page_data) in
  let page_num := default (i + 1) (page_number page_data) in
  if negb (truthy (strip t)) then Some []
  else if len t <=? chunk_size then Some [new_chunk t page_num]
  else split_loop (length t) t page_num chunk_size chunk_overlap 0.

Fixpoint chunk_pages (i : Z) (extracted_pages : list Page)
    (chunk_size chunk_overlap : Z) : option (list Chunk) :=
  match extracted_pages with
  | [] => Some []
  | page_data :: rest =>
      match chunk_page i page_data chunk_size chunk_overlap,
            chunk_pages (i + 1) rest chunk_size chunk_overlap with
      | Some here, Some later => Some (here ++ later)
      | _, _ => None
      end
  end.

Definition chunk_text (extracted_pages : list Page) (chunk_size chunk_overlap : Z)
    : option (list Chunk) :=
  chunk_pages 0 extracted_pages chunk_size chunk_overlap.

End Chunker.

Import Chunker.

(** ** The summarization client and the orchestrator *)

Module Pipeline.

(** An exception value; [exn_str] is [str(e)]. *)
Record Exn := mkExn {
  exn_type : string;
  exn_str : str
}.

Record DocumentResult := mkDocumentResult {
  source : str;
  chunks : list Chunk
}.

(** What one page of the opened document gives to [page.get_text()]. *)
Inductive PageRead :=
| Text (t : str)
| Unreadable (e : Exn).

(** What [fitz.open] gives. *)
Inductive Pdf :=
| CannotOpen (e : Exn)
| Doc (page_reads : list PageRead).

(** What one [invoke_model] call followed by the decoding of its body
    gives: the summary text, or an exception. *)
Inductive Response :=
| Completion (summary_text : str)
| Failure (e : Exn).

(** The collaborators of the module.  The n-th call of the remote endpoint
    and the n-th opening of a file for writing are answered by position. *)
Record Env := mkEnv {
  fitz_open : str -> Pdf;
  invoke_model : nat -> str -> Response;
  open_for_write : nat -> str -> option Exn;
  makedirs : str -> option Exn
}.


(** The state a run threads: the files on disk (by path, with the parsed
    content of each), the clock and call counters, and the two variables
    of [process_stock_report] that are mutated while it runs.
    [result_data["chunks"]] is the very list [text_chunks]. *)
Record State := mkState {
  files : gmap str DocumentResult;
  slept : list Z;
  invoked : nat;
  opened : nat;
  text_chunks : list Chunk;
  successful_chunks : Z
}.

Definition initial_state (fs : gmap str DocumentResult) : State :=
  {| files := fs; slept := []; invoked := 0; opened := 0;
     text_chunks := []; successful_chunks := 0 |}.

Inductive Result (A : Type) :=
| Returned (a : A)
| Raised (e : Exn)
| OutOfFuel.
Arguments Returned {A} a.
Arguments Raised {A} e.
Arguments OutOfFuel {A}.

Definition M (A : Type) : Type := State -> Result A * State.

Definition ret {A} (a : A) : M A := fun s => (Returned a, s).
Definition raise {A} (e : Exn) : M A := fun s => (Raised e, s).
Definition bind {A B} (m : M A) (k : A -> M B) : M B :=
  fun s =>
    match m s with
    | (Returned a, s') => k a s'
    | (Raised e, s') => (Raised e, s')
    | (OutOfFuel, s') => (OutOfFuel, s')
    end.

(** [try: m  except Exception as e: h e] *)
Definition try_except {A} (m : M A) (h : Exn -> M A) : M A :=
  fun s =>
    match m s with
    | (Raised e, s') => h e s'
    | r => r
    end.

Definition get : M State := fun s => (Returned s, s).
Definition modify (f : State -> State) : M unit := fun s => (Returned tt, f s).

Notation "'let*' x ':=' m 'in' k" := (bind m (fun x => k))
  (at level 10, x name, m at level 100, k at level 200).
Notation "m '>>' k" := (bind m (fun _ => k))
  (at level 80, right associativity).

(** The updates of one component of the state. *)
Definition record_sleep (d : Z) (s : State) : State :=
  {| files := files s; slept := slept s ++ [d]; invoked := invoked s;
     opened := opened s; text_chunks := text_chunks s;
     successful_chunks := successful_chunks s |}.

Definition count_call (s : State) : State :=
  {| files := files s; slept := slept s; invoked := S (invoked s);
     opened := opened s; text_chunks := text_chunks s;
     successful_chunks := successful_chunks s |}.

Definition count_open (s : State) : State :=
  {| files := files s; slept := slept s; invoked := invoked s;
     opened := S (opened s); text_chunks := text_chunks s;
     successful_chunks := successful_chunks s |}.

Definition write_file (path : str) (content : DocumentResult) (s : State) : State :=
  {| files := <[path := content]> (files s); slept := slept s;
     invoked := invoked s; opened := opened s; text_chunks := text_chunks s;
     successful_chunks := successful_chunks s |}.

Definition set_chunks (l : list Chunk) (s : State) : State :=
  {| files := files s; slept := slept s; invoked := invoked s;
     opened := opened s; text_chunks := l;
     successful_chunks := successful_chunks s |}.

Definition set_successful (n : Z) (s : State) : State :=
  {| files := files s; slept := slept s; invoked := invoked s;
     opened := opened s; text_chunks := text_chunks s;
     successful_chunks := n |}.

(** [time.sleep(d)] *)
Definition sleep (d : Z) : M unit := modify (record_sleep d).

(** *** [extract_pdf] *)

(** The [for page_idx in range(len(doc))] loop inside the [try]: pages are
    appended until a read raises; the handler prints and the pages
    collected so far are returned. *)
Fixpoint read_pages (page_idx : Z) (page_reads : list PageRead) : list Page :=
  match page_reads with
  | [] => []
  | Text t :: rest =>
      {| page_text := Some t; page_number := Some (page_idx + 1) |}
        :: read_pages (page_idx + 1) rest
  | Unreadable _ :: _ => []
  end.

Definition extract_pdf (E : Env) (pdf_path : str) : list Page :=
  match fitz_open E pdf_path with
  | CannotOpen _ => []
  | Doc page_reads => read_pages 0 page_reads
  end.

(** *** [summarize_with_claude] *)

Definition prompt_of (chunk_text : str) : str :=
  lit "Below is a section from a stock report. Please provide a concise summary that captures the key financial information, metrics, and insights:"
  ++ [LF; LF] ++ chunk_text ++ [LF; LF] ++ lit "Summary:".

Definition call_endpoint (E : Env) (prompt : str) : M str :=
  fun s =>
    match invoke_model E (invoked s) prompt with
    | Completion summary_text => (Returned summary_text, count_call s)
    | Failure e => (Raised e, count_call s)
    end.

(** ["ThrottlingException" in str(e)] *)
Definition throttled (e : Exn) : bool :=
  contains (lit "ThrottlingException") (exn_str e).

(** The [for attempt in range(max_retries)] loop, [remaining] iterations
    from [attempt] on.  Falling off the end of the loop returns [None]. *)
Fixpoint retry_loop (E : Env) (prompt : str) (max_retries : Z)
    (remaining : nat) (attempt : Z) : M PyVal :=
  match remaining with
  | O => ret PyNone
  | S remaining' =>
      fun s =>
        match call_endpoint E prompt s with
        | (Raised e, s') =>
            if throttled e && (attempt <? max_retries - 1)
            then (let wait_time := 2 ^ (attempt + 2) in
                  sleep wait_time >>
                  retry_loop E prompt max_retries remaining' (attempt + 1)) s'
            else (Raised e, s')
        | (Returned summary_text, s') => (Returned (PyStr summary_text), s')
        | (OutOfFuel, s') => (OutOfFuel, s')
        end
  end.

Definition summarize_with_claude (E : Env) (chunk_text : str) (max_retries : Z)
    : M PyVal :=
  retry_loop E (prompt_of chunk_text) max_retries (Z.to_nat max_retries) 0.

(** *** [save_partial_results] *)

(** [result_data]: the dictionary whose ["chunks"] is the list
    [text_chunks] itself, so that it always shows the current chunks. *)
Definition result_data (pdf_path : str) (s : State) : DocumentResult :=
  {| source := pdf_path; chunks := text_chunks s |}.

(** Opens the file for writing and dumps the record into it.  A failure
    is a failure to open, which leaves the file as it was. *)
Definition save_partial_results (E : Env) (pdf_path output_filename : str) : M unit :=
  fun s =>
    match open_for_write E (opened s) output_filename with
    | Some e => (Raised e, count_open s)
    | None =>
        (Returned tt,
         write_file output_filename (result_data pdf_path s) (count_open s))
    end.

(** *** [process_stock_report] *)

(** [os.path.basename] (POSIX): what follows the last slash. *)
Definition basename (p : str) : str :=
  fold_left (fun acc c => if (c =? 47)%N then [] else acc ++ [c]) p [].

(** [s.replace(old, new)] for a non-empty [old]; [skip] counts the
    characters of a matched [old] still to be dropped. *)
Fixpoint replace_from (old new s : str) (skip : nat) : str :=
  match s with
  | [] => []
  | c :: s' =>
      match skip with
      | S k => replace_from old new s' k
      | O => if is_prefix old s
             then new ++ replace_from old new s' (length old - 1)
             else c :: replace_from old new s' O
      end
  end.

Definition replace (s old new : str) : str := replace_from old new s O.

(** [os.path.join(a, b)] (POSIX, two components). *)
Definition path_join (a b : str) : str :=
  if is_prefix [47%N] b then b
  else if negb (truthy a) || is_prefix [47%N] (rev a) then a ++ b
  else a ++ [47%N] ++ b.

Definition output_filename_of (pdf_path output_dir : str) : str :=
  path_join output_dir (replace (basename pdf_path) (lit ".pdf") (lit ".json")).

Definition set_summary (v : PyVal) (c : Chunk) : Chunk :=
  {| text := text c; metadata := metadata c; summary := Some v |}.

(** [chunk["summary"] = v] for the chunk at position [i] of [text_chunks]. *)
Definition assign_summary (i : nat) (v : PyVal) : M unit :=
  modify (fun s => set_chunks (alter (set_summary v) i (text_chunks s)) s).

(** [successful_chunks += 1] *)
Definition increment_successful : M unit :=
  modify (fun s => set_successful (successful_chunks s + 1) s).

(** [text_chunks = ...] and [successful_chunks = 0] before the loop. *)
Definition init_locals (l : list Chunk) : M unit :=
  modify (fun s => set_successful 0 (set_chunks l s)).

(** The body of [for i, chunk in enumerate(text_chunks)]. *)
Definition process_chunk (E : Env) (pdf_path output_filename : str) (i : nat)
    : M unit :=
  let* s0 := get in
  match text_chunks s0 !! i with
  | None => ret tt
  | Some chunk =>
      let text_content := text chunk in
      try_except
        (let* summary_value := summarize_with_claude E text_content 5 in
         assign_summary i summary_value >>
         increment_successful >>
         save_partial_results E pdf_path output_filename)
        (fun e => assign_summary i (PyStr (lit "Error: " ++ exn_str e))) >>
      if (Z.of_nat i <? Z.of_nat (length (text_chunks s0)) - 1)
      then sleep 5
      else ret tt
  end.

Fixpoint for_each (indices : list nat) (body : nat -> M unit) : M unit :=
  match indices with
  | [] => ret tt
  | i :: rest => body i >> for_each rest body
  end.

(** The [with open(output_filename, 'r')] block: the file is read back and
    only printed from.  The files of the model are result files, as
    [json.dump] writes them; on such a file the block does not fail, and
    without a file [open] raises.  What [json.load] and [.get] raise on a
    file of another kind at that path is not modelled. *)
Definition verify_output (output_filename : str) : M unit :=
  fun s =>
    match files s !! output_filename with
    | None =>
        (Raised {| exn_type := "FileNotFoundError";
                   exn_str := lit "[Errno 2] No such file or directory: '"
                              ++ output_filename ++ lit "'" |}, s)
    | Some _ => (Returned tt, s)
    end.

Definition process_stock_report (E : Env) (pdf_path output_dir : str) : M str :=
  match makedirs E output_dir with
  | Some e => raise e
  | None =>
      let extracted_pages := extract_pdf E pdf_path in
      match chunk_text extracted_pages 1000 200 with
      | None => fun s => (OutOfFuel, s)
      | Some chunked =>
          let output_filename := output_filename_of pdf_path output_dir in
          init_locals chunked >>
          for_each (seq 0 (length chunked))
                   (process_chunk E pdf_path output_filename) >>
          verify_output output_filename >>
          ret output_filename
      end
  end.

End Pipeline.

(** ** [db_utils.py] *)

Module DbUtils.

(** [str.lower] on one code point, as far as the comparisons of this file
    with ["y"], ["stats"] and ["clear"] can tell: the ASCII capitals and
    the Kelvin sign are the only code points whose lower case is one ASCII
    letter, and the lower case of every other code point has a code point
    that is not ASCII in it. *)
Definition lower_char (c : char) : char :=
  (if (65 <=? c) && (c <=? 90) then c + 32
   else if c =? 8490 then 107
   else c)%N.

Definition lower (s : str) : str := map lower_char s.

Definition str_eqb (a b : str) : bool := bool_decide (a = b).

(** The store (the names of its tables) and the lines still to be read
    from standard input. *)
Record State := mkState {
  tables : gset string;
  stdin : list str
}.

Inductive Outcome :=
| Done
| Exit (code : Z)
| Uncaught (exn_type : string).

(** [get_db_stats] only reads the store and prints. *)
Definition get_db_stats (s : State) : Outcome * State := (Done, s).

Definition drop_stock_chunks (s : State) : Outcome * State :=
  if bool_decide ("stock_chunks"%string ∈ tables s)
  then (Done, {| tables := tables s ∖ {["stock_chunks"%string]}; stdin := stdin s |})
  else (Done, s).

Definition clear_database (confirm : bool) (s : State) : Outcome * State :=
  if confirm then
    match stdin s with
    | [] => (Uncaught "EOFError", s)
    | confirmation :: rest =>
        let s' := {| tables := tables s; stdin := rest |} in
        if negb (str_eqb (lower confirmation) (lit "y"))
        then (Done, s')
        else drop_stock_chunks s'
    end
  else drop_stock_chunks s.

(** The [__main__] block; [confirm] keeps its default [True]. *)
Definition main (argv : list str) (s : State) : Outcome * State :=
  if (Z.of_nat (length argv) <? 2) then (Exit 1, s)
  else
    match argv !! 1%nat with
    | None => (Exit 1, s)
    | Some arg =>
        let action := lower arg in
        if str_eqb action (lit "stats") then get_db_stats s
        else if str_eqb action (lit "clear") then clear_database true s
        else (Done, s)
    end.

End DbUtils.

Import Pipeline.

(** ** Vocabulary of the statements *)

(** What every chunk of a page with number [pn] looks like. *)
Definition tagged (pn : Z) (c : Chunk) : Prop :=
  truthy (strip (text c)) = true
  ∧ pages (metadata c) = [pn]
  ∧ source_page (metadata c) = pn.

(** The string stored as the summary of a chunk whose processing raised. *)
Definition error_summary (e : Exn) : PyVal := PyStr (lit "Error: " ++ exn_str e).

(** The state after the [try] statement of one iteration, given the
    outcome [r] and the state [s1] of the summarization call. *)
Definition after_attempt (E : Env) (pdf_path output_filename : str) (i : nat)
    (r : Result PyVal) (s1 : State) : State :=
  match r with
  | Returned v =>
      let s2 := set_successful (successful_chunks s1 + 1)
                  (set_chunks (alter (set_summary v) i (text_chunks s1)) s1) in
      match open_for_write E (opened s2) output_filename with
      | None => write_file output_filename (result_data pdf_path s2) (count_open s2)
      | Some e =>
          set_chunks (alter (set_summary (error_summary e)) i (text_chunks s2))
                     (count_open s2)
      end
  | Raised e =>
      set_chunks (alter (set_summary (error_summary e)) i (text_chunks s1)) s1
  | OutOfFuel => s1
  end.

(** The pause between two requests. *)
Definition pace (i n : nat) (s : State) : State :=
  if Z.of_nat i <? Z.of_nat n - 1 then record_sleep 5 s else s.

(** ** Inputs and runs used by the examples *)

Definition page_2500 : Page :=
  {| page_text := Some (replicate 2500 97%N); page_number := Some 1 |}.

Definition padded_page : Page :=
  {| page_text := Some (lit " a"); page_number := Some 1 |}.

Definition access_denied : Exn :=
  {| exn_type := "ClientError";
     exn_str := lit "An error occurred (AccessDeniedException) when calling the InvokeModel operation" |}.

Definition too_many_requests : Exn :=
  {| exn_type := "ClientError";
     exn_str := lit "An error occurred (ThrottlingException) when calling the InvokeModel operation" |}.


Definition damaged_page : Exn :=
  {| exn_type := "RuntimeError"; exn_str := lit "cannot load page" |}.

Definition q1_pdf : str := lit "reports/q1.pdf".
Definition q1_json : str := lit "extracted_data/q1.json".
Definition out_dir : str := lit "extracted_data".

(** One page, and an endpoint that refuses every request. *)
Definition every_chunk_fails : Env :=
  {| fitz_open := fun _ => Doc [Text (lit "Revenue grew.")];
     invoke_model := fun _ _ => Failure access_denied;
     open_for_write := fun _ _ => None;
     makedirs := fun _ => None |}.

(** One page, and an endpoint that throttles every request. *)
Definition always_throttled : Env :=
  {| fitz_open := fun _ => Doc [Text (lit "Revenue grew.")];
     invoke_model := fun _ _ => Failure too_many_requests;
     open_for_write := fun _ _ => None;
     makedirs := fun _ => None |}.

(** Two pages; the first request is answered, the second is refused. *)
Definition second_chunk_fails : Env :=
  {| fitz_open := fun _ => Doc [Text (lit "Revenue grew."); Text (lit "Costs fell.")];
     invoke_model := fun n _ =>
       match n with
       | O => Completion (lit "Revenue is up.")
       | _ => Failure access_denied
       end;
     open_for_write := fun _ _ => None;
     makedirs := fun _ => None |}.

(** Three pages; the request for the second chunk is refused. *)
Definition middle_chunk_fails : Env :=
  {| fitz_open := fun _ =>
       Doc [Text (lit "Revenue grew."); Text (lit "Costs fell."); Text (lit "Margins held.")];
     invoke_model := fun n _ =>
       match n with
       | 1%nat => Failure access_denied
       | _ => Completion (lit "Noted.")
       end;
     open_for_write := fun _ _ => None;
     makedirs := fun _ => None |}.



Definition store_with_answer (answer : str) : DbUtils.State :=
  {| DbUtils.tables := {["stock_chunks"%string]}; DbUtils.stdin := [answer] |}.

(** ** Vocabulary of the further properties *)

(** ** The iterations of the splitting loop *)

(** The values [start] has at the head of the [while] loop of a page. *)
Inductive loop_start (t : str) (chunk_size chunk_overlap : Z) : Z → Prop :=
| loop_start_first : loop_start t chunk_size chunk_overlap 0
| loop_start_next start :
    loop_start t chunk_size chunk_overlap start →
    start < len t →
    loop_start t chunk_size chunk_overlap
      (next_start t chunk_size chunk_overlap start).

(** Position [p] of the text lies in the window of some iteration. *)
Definition in_a_window (t : str) (chunk_size chunk_overlap : Z) (p : Z) : Prop :=
  ∃ start, loop_start t chunk_size chunk_overlap start ∧ start < len t
           ∧ start <= p < window_end t chunk_size start.

(** A page whose text is missing, empty or white space only. *)
Definition blank (page_data : Page) : Prop :=
  truthy (strip (default [] (page_text page_data))) = false.

(** A page of prose, with a paragraph break and sentence ends. *)
Definition prose_page : Page :=
  {| page_text := Some (lit "Sales rose. Costs fell." ++ [LF; LF]
                        ++ lit "Margins held! Outlook is stable.");
     page_number := Some 7 |}.

Definition blank_page : Page :=
  {| page_text := Some (lit "  " ++ [LF]); page_number := Some 8 |}.

Definition len_pages (l : list Page) : Z := Z.of_nat (length l).

(** An endpoint that throttles the first two requests and answers the
    third. *)
Definition throttled_twice : Env :=
  {| fitz_open := fun _ => Doc [Text (lit "Revenue grew.")];
     invoke_model := fun n _ =>
       match n with
       | 0%nat | 1%nat => Failure too_many_requests
       | _ => Completion (lit "Noted.")
       end;
     open_for_write := fun _ _ => None;
     makedirs := fun _ => None |}.

(** [l'] is [l] with, at most, the summaries changed; position [i] has
    one. *)
Definition summary_set_at (i : nat) (l l' : list Chunk) : Prop :=
  length l' = length l
  ∧ ∀ (j : nat) c, l !! j = Some c →
      ∃ c', l' !! j = Some c'
        ∧ text c' = text c ∧ metadata c' = metadata c
        ∧ (j = i → is_Some (summary c'))
        ∧ (j ≠ i → c' = c).

(** What an earlier run may have left at the output path. *)
Definition stale_result : DocumentResult :=
  {| source := lit "reports/q1.pdf";
     chunks := [set_summary (PyStr (lit "Old summary."))
                  (new_chunk (lit "Old text.") 1)] |}.

(** A document that cannot be opened. *)
Definition cannot_open : Env :=
  {| fitz_open := fun _ => CannotOpen damaged_page;
     invoke_model := fun _ _ => Completion (lit "Noted.");
     open_for_write := fun _ _ => None;
     makedirs := fun _ => None |}.




(** ** What [get_db_stats] prints *)

Module DbStats.

(** [Series.unique()]: the distinct values, in order of first appearance. *)
Fixpoint unique (column : list str) : list str :=
  match column with
  | [] => []
  | x :: rest => x :: filter (λ y, y ≠ x) (unique rest)
  end.

(** [len(df[df['source_file'] == source])] *)
Definition rows_of (source : str) (column : list str) : nat :=
  length (filter (λ y, y = source) column).

(** The numbers of the report: total chunks, unique source files, and
    one line for each source file with its number of chunks. *)
Record Report := mkReport {
  total_chunks : nat;
  unique_source_files : nat;
  source_lines : list (str * nat)
}.

(** The report for a store whose [stock_chunks] table, when there is
    one, has the given [source_file] column; [None] when the function
    prints that the table does not exist and returns. *)
Definition get_db_stats_report (table : option (list str)) : option Report :=
  match table with
  | None => None
  | Some column =>
      let row_count := length column in
      let unique_sources := unique column in
      Some {| total_chunks := row_count;
              unique_source_files := length unique_sources;
              source_lines :=
                map (λ source, (source, rows_of source column)) unique_sources |}
  end.

(** The sum of the counts printed for [sources]. *)
Definition total_rows (sources column : list str) : nat :=
  list_sum (map (λ source, rows_of source column) sources).

End DbStats.

(** * The search window width *)

(** For the chunk sizes between -5000 and 5000 the double product
    truncates to the integer quotient. *)
Lemma int_fifth_small (n : Z) :
  -5000 <= n <= 5000 → int_fifth n = Z.quot n 5.
Proof.
  intros Hn.
  assert (Hall : forallb (λ k, int_fifth (Z.of_nat k - 5000)
                               =? Z.quot (Z.of_nat k - 5000) 5)
                   (seq 0 (Z.to_nat 10001)) = true)
    by (vm_compute; reflexivity).
  rewrite forallb_forall in Hall.
  specialize (Hall (Z.to_nat (n + 5000))).
  replace (Z.of_nat (Z.to_nat (n + 5000)) - 5000) with n in Hall by lia.
  apply Z.eqb_eq, Hall, in_seq. lia.
Qed.

(** Beyond the 53 bits of a double the product is no longer the
    quotient, and beyond the range of a double the model has the
    quotient where Python raises. *)
Example int_fifth_large :
  int_fifth 1000 = 200
  ∧ int_fifth 7000000000000004 = 1400000000000001
  ∧ Double.int_mul_point_two (- 10 ^ 400) = None
  ∧ int_fifth (- 10 ^ 400) = Z.quot (- 10 ^ 400) 5.
Proof. repeat split; vm_compute; reflexivity. Qed.

(** * Properties of the string operations *)

Section StripLemmas.

Lemma lstrip_split (s : str) :
  ∃ sp, s = sp ++ lstrip s ∧ forallb isspace sp = true.
Proof.
  induction s as [|c r IH]; simpl.
  - exists []. split; reflexivity.
  - destruct (isspace c) eqn:Hc.
    + destruct IH as (sp & Heq & Hsp).
      exists (c :: sp). split.
      * simpl. f_equal. exact Heq.
      * simpl. rewrite Hc. exact Hsp.
    + exists []. split; reflexivity.
Qed.

Lemma lstrip_head (s : str) c r : lstrip s = c :: r → isspace c = false.
Proof.
  induction s as [|a s IH]; simpl; [discriminate|].
  destruct (isspace a) eqn:Ha; [exact IH|].
  intros [= -> _]. exact Ha.
Qed.

Lemma lstrip_fixed c r : isspace c = false → lstrip (c :: r) = c :: r.
Proof. intros H. simpl. rewrite H. reflexivity. Qed.

Lemma lstrip_idem (s : str) : lstrip (lstrip s) = lstrip s.
Proof.
  destruct (lstrip s) as [|c r] eqn:E; [reflexivity|].
  apply lstrip_fixed. eapply lstrip_head. exact E.
Qed.

Lemma strip_idem (s : str) : strip (strip s) = strip s.
Proof.
  unfold strip, rstrip.
  set (u := lstrip s).
  destruct (lstrip_split (rev u)) as (sp & Hsplit & _).
  set (w := lstrip (rev u)) in *.
  assert (Hu : u = rev w ++ rev sp).
  { rewrite <- (rev_involutive u), Hsplit, rev_app_distr. reflexivity. }
  destruct (rev w) as [|c r] eqn:Hw.
  - reflexivity.
  - assert (Hc : isspace c = false).
    { apply (lstrip_head s c (r ++ rev sp)). fold u. rewrite Hu. reflexivity. }
    rewrite (lstrip_fixed c r Hc), <- Hw, rev_involutive.
    unfold w. rewrite lstrip_idem. reflexivity.
Qed.

End StripLemmas.

(** * Properties of the chunker *)

Section ChunkerLemmas.

Variables (t : str) (page_num chunk_size chunk_overlap : Z).

Lemma next_start_gt start : start < next_start t chunk_size chunk_overlap start.
Proof. unfold next_start. lia. Qed.

Lemma split_loop_enough_fuel fuel start :
  len t - start <= Z.of_nat fuel →
  is_Some (split_loop fuel t page_num chunk_size chunk_overlap start).
Proof.
  revert start. induction fuel as [|fuel IH]; intros start Hfuel; simpl.
  - destruct (start <? len t) eqn:Hlt; [|eexists; reflexivity].
    apply Z.ltb_lt in Hlt. lia.
  - destruct (start <? len t) eqn:Hlt; [|eexists; reflexivity].
    pose proof (next_start_gt start) as Hgt.
    destruct (IH (next_start t chunk_size chunk_overlap start)) as [rest Hrest];
      [lia|].
    rewrite Hrest. eexists; reflexivity.
Qed.

Lemma split_loop_more_fuel fuel fuel' start chunks :
  split_loop fuel t page_num chunk_size chunk_overlap start = Some chunks →
  (fuel <= fuel')%nat →
  split_loop fuel' t page_num chunk_size chunk_overlap start = Some chunks.
Proof.
  revert fuel' start chunks.
  induction fuel as [|fuel IH]; intros fuel' start chunks; simpl.
  - destruct (start <? len t) eqn:Hlt; [discriminate|].
    intros H _. destruct fuel'; simpl; rewrite Hlt; exact H.
  - destruct (start <? len t) eqn:Hlt.
    + destruct (split_loop fuel _ _ _ _ _) as [rest|] eqn:Hrest; [|discriminate].
      intros H Hle. destruct fuel' as [|fuel']; [lia|].
      simpl. rewrite Hlt.
      rewrite (IH fuel' _ rest Hrest); [exact H | lia].
    + intros H _. destruct fuel'; simpl; rewrite Hlt; exact H.
Qed.

Lemma emit_tagged start e : Forall (tagged page_num) (emit t page_num start e).
Proof.
  unfold emit.
  destruct (truthy (strip (slice t start e))) eqn:Hne; constructor; [|constructor].
  unfold tagged, new_chunk; simpl. rewrite strip_idem. auto.
Qed.

Lemma split_loop_tagged fuel start chunks :
  split_loop fuel t page_num chunk_size chunk_overlap start = Some chunks →
  Forall (tagged page_num) chunks.
Proof.
  revert start chunks. induction fuel as [|fuel IH]; intros start chunks; simpl.
  - destruct (start <? len t); [discriminate|]. intros [= <-]. constructor.
  - destruct (start <? len t); [|intros [= <-]; constructor].
    destruct (split_loop fuel _ _ _ _ _) as [rest|] eqn:Hrest; [|discriminate].
    intros [= <-]. apply Forall_app. split.
    + apply emit_tagged.
    + eapply IH. exact Hrest.
Qed.

End ChunkerLemmas.

Lemma chunk_page_total i page_data chunk_size chunk_overlap :
  is_Some (chunk_page i page_data chunk_size chunk_overlap).
Proof.
  unfold chunk_page.
  destruct (negb _); [eexists; reflexivity|].
  destruct (_ <=? _); [eexists; reflexivity|].
  apply split_loop_enough_fuel. unfold len. lia.
Qed.

Lemma chunk_page_tagged i page_data chunk_size chunk_overlap part :
  chunk_page i page_data chunk_size chunk_overlap = Some part →
  Forall (tagged (default (i + 1) (page_number page_data))) part.
Proof.
  unfold chunk_page.
  destruct (truthy (strip (default [] (page_text page_data)))) eqn:Hne; simpl.
  - destruct (_ <=? _).
    + intros [= <-]. constructor; [|constructor].
      unfold tagged, new_chunk; simpl. auto.
    + apply split_loop_tagged.
  - intros [= <-]. constructor.
Qed.

(** The chunks of a list of pages are the chunks of its pages, in order. *)
Lemma chunk_pages_parts i extracted_pages chunk_size chunk_overlap :
  ∃ parts : list (list Chunk),
    chunk_pages i extracted_pages chunk_size chunk_overlap = Some (concat parts)
    ∧ length parts = length extracted_pages
    ∧ ∀ (k : nat) page_data, extracted_pages !! k = Some page_data →
        ∃ part, parts !! k = Some part
          ∧ chunk_page (i + Z.of_nat k) page_data chunk_size chunk_overlap = Some part.
Proof.
  revert i. induction extracted_pages as [|p rest IH]; intros i; simpl.
  - exists []. split; [reflexivity|]. split; [reflexivity|].
    intros k pd Hk. discriminate.
  - destruct (chunk_page_total i p chunk_size chunk_overlap) as [here Hhere].
    destruct (IH (i + 1)) as (parts & Hparts & Hlen & Hk).
    rewrite Hhere, Hparts.
    exists (here :: parts). split; [reflexivity|]. split; [simpl; lia|].
    intros [|k] pd Hpd; simpl in *.
    + injection Hpd as <-. exists here. split; [reflexivity|].
      replace (i + Z.of_nat 0) with i by lia. exact Hhere.
    + destruct (Hk k pd Hpd) as (part & Hp1 & Hp2).
      exists part. split; [exact Hp1|].
      replace (i + Z.of_nat (S k)) with (i + 1 + Z.of_nat k) by lia. exact Hp2.
Qed.

Lemma chunk_text_parts extracted_pages chunk_size chunk_overlap :
  ∃ parts : list (list Chunk),
    chunk_text extracted_pages chunk_size chunk_overlap = Some (concat parts)
    ∧ length parts = length extracted_pages
    ∧ ∀ (k : nat) page_data, extracted_pages !! k = Some page_data →
        ∃ part, parts !! k = Some part
          ∧ chunk_page (Z.of_nat k) page_data chunk_size chunk_overlap = Some part.
Proof.
  destruct (chunk_pages_parts 0 extracted_pages chunk_size chunk_overlap)
    as (parts & H1 & H2 & H3).
  exists parts. split; [exact H1|]. split; [exact H2|].
  intros k pd Hk. destruct (H3 k pd Hk) as (part & Hp & Hc).
  exists part. split; [exact Hp|]. exact Hc.
Qed.

(** C7: in the splitting loop the start position strictly increases on
    every iteration, whatever the text, the chunk size and the overlap
    (an overlap of [chunk_size - 1] or more included), and so the loop
    terminates: as many iterations as there are characters left after
    [start] are enough for it to finish with a list of chunks. *)
Theorem split_loop_progress_and_termination
    (t : str) (page_num chunk_size chunk_overlap start : Z) :
  start < next_start t chunk_size chunk_overlap start
  ∧ ∃ chunks,
      split_loop (Z.to_nat (len t - start)) t page_num chunk_size chunk_overlap start
      = Some chunks.
Proof.
  split.
  - apply next_start_gt.
  - apply split_loop_enough_fuel. lia.
Qed.

(** C8: every chunk the chunker emits has a text that is non-empty after
    trimming, and it comes from one page of the input: its
    [metadata.pages] has at least one element, each element is that
    page's number, and so is [metadata.source_page]. *)
Theorem emitted_chunks_nonempty_and_tagged
    (extracted_pages : list Page) (chunk_size chunk_overlap : Z)
    (emitted : list Chunk) (c : Chunk) :
  chunk_text extracted_pages chunk_size chunk_overlap = Some emitted →
  c ∈ emitted →
  truthy (strip (text c)) = true
  ∧ (1 <= length (pages (metadata c)))%nat
  ∧ ∃ (k : nat) page_data part,
      extracted_pages !! k = Some page_data
      ∧ chunk_page (Z.of_nat k) page_data chunk_size chunk_overlap = Some part
      ∧ c ∈ part
      ∧ Forall (λ n, n = default (Z.of_nat k + 1) (page_number page_data))
               (pages (metadata c))
      ∧ source_page (metadata c) = default (Z.of_nat k + 1) (page_number page_data).
Proof.
  intros Hrun Hc.
  destruct (chunk_text_parts extracted_pages chunk_size chunk_overlap)
    as (parts & Hparts & Hlen & Hk).
  rewrite Hrun in Hparts. injection Hparts as ->.
  apply list_elem_of_In, in_concat in Hc as (part & Hpart & Hcpart).
  apply list_elem_of_In in Hcpart.
  apply list_elem_of_In, list_elem_of_lookup in Hpart as (k & Hkpart).
  assert (Hlt : (k < length extracted_pages)%nat).
  { rewrite <- Hlen. eapply lookup_lt_Some. exact Hkpart. }
  destruct (lookup_lt_is_Some_2 _ _ Hlt) as (pd & Hpd).
  destruct (Hk k pd Hpd) as (part' & Hpart' & Hchunk).
  assert (part' = part) as -> by congruence.
  pose proof (chunk_page_tagged _ _ _ _ _ Hchunk) as Htag.
  rewrite Forall_forall in Htag.
  destruct (Htag c Hcpart) as (Hne & Hpages & Hsrc).
  split; [exact Hne|]. split; [rewrite Hpages; simpl; lia|].
  exists k, pd, part.
  split; [exact Hpd|]. split; [exact Hchunk|]. split; [exact Hcpart|].
  split; [|exact Hsrc].
  rewrite Hpages. constructor; [reflexivity|constructor].
Qed.

Lemma emitted_chunks_nonempty_and_tagged_witness :
  let c := new_chunk (lit " a") 1 in
  truthy (strip (text c)) = true
  ∧ (1 <= length (pages (metadata c)))%nat
  ∧ ∃ (k : nat) page_data part,
      [padded_page] !! k = Some page_data
      ∧ chunk_page (Z.of_nat k) page_data 1000 200 = Some part
      ∧ c ∈ part
      ∧ Forall (λ n, n = default (Z.of_nat k + 1) (page_number page_data))
               (pages (metadata c))
      ∧ source_page (metadata c) = default (Z.of_nat k + 1) (page_number page_data).
Proof.
  apply (emitted_chunks_nonempty_and_tagged
           [padded_page] 1000 200 [new_chunk (lit " a") 1]).
  - reflexivity.
  - apply list_elem_of_singleton. reflexivity.
Defined.

(** C6, as the code has it: for a page whose text is not white space only
    and is at most [chunk_size] long, the chunker emits exactly one chunk
    for that page, and the chunk's text is the page's full text as it
    stands, leading and trailing white space included.  The result of
    [chunk_text] is the chunks of its pages one after the other, and the
    chunks of this page are that one chunk. *)
Theorem short_page_kept_whole
    (extracted_pages : list Page) (chunk_size chunk_overlap : Z)
    (k : nat) (page_data : Page) (t : str) :
  extracted_pages !! k = Some page_data →
  page_text page_data = Some t →
  truthy (strip t) = true →
  len t <= chunk_size →
  chunk_page (Z.of_nat k) page_data chunk_size chunk_overlap
  = Some [new_chunk t (default (Z.of_nat k + 1) (page_number page_data))]
  ∧ ∃ parts : list (list Chunk),
      chunk_text extracted_pages chunk_size chunk_overlap = Some (concat parts)
      ∧ length parts = length extracted_pages
      ∧ (∀ (j : nat) other, extracted_pages !! j = Some other →
           parts !! j = chunk_page (Z.of_nat j) other chunk_size chunk_overlap)
      ∧ parts !! k
        = Some [new_chunk t (default (Z.of_nat k + 1) (page_number page_data))].
Proof.
  intros Hk Ht Hne Hlen.
  assert (Hpage : chunk_page (Z.of_nat k) page_data chunk_size chunk_overlap
                  = Some [new_chunk t (default (Z.of_nat k + 1)
                                               (page_number page_data))]).
  { unfold chunk_page. rewrite Ht. cbn [default from_option id].
    rewrite Hne. cbn [negb]. apply Z.leb_le in Hlen. rewrite Hlen. reflexivity. }
  split; [exact Hpage|].
  destruct (chunk_text_parts extracted_pages chunk_size chunk_overlap)
    as (parts & Hparts & Hlenp & Hall).
  exists parts. split; [exact Hparts|]. split; [exact Hlenp|].
  assert (Htie : ∀ (j : nat) other, extracted_pages !! j = Some other →
            parts !! j = chunk_page (Z.of_nat j) other chunk_size chunk_overlap).
  { intros j other Hj. destruct (Hall j other Hj) as (part & Hpart & Hchunk).
    congruence. }
  split; [exact Htie|].
  rewrite (Htie k page_data Hk). exact Hpage.
Qed.

Lemma short_page_kept_whole_witness :
  let extracted_pages := [padded_page; prose_page; padded_page] in
  chunk_page (Z.of_nat 2) padded_page 20 4
  = Some [new_chunk (lit " a") (default (Z.of_nat 2 + 1) (page_number padded_page))]
  ∧ ∃ parts : list (list Chunk),
      chunk_text extracted_pages 20 4 = Some (concat parts)
      ∧ length parts = length extracted_pages
      ∧ (∀ (j : nat) other, extracted_pages !! j = Some other →
           parts !! j = chunk_page (Z.of_nat j) other 20 4)
      ∧ parts !! 2%nat
        = Some [new_chunk (lit " a")
                  (default (Z.of_nat 2 + 1) (page_number padded_page))].
Proof.
  cbv zeta.
  apply (short_page_kept_whole [padded_page; prose_page; padded_page] 20 4
           2 padded_page (lit " a")).
  - reflexivity.
  - reflexivity.
  - reflexivity.
  - vm_compute. discriminate.
Defined.

(** C6 as stated fails: a short page that starts with a space yields a
    chunk that still starts with that space. *)
Lemma short_page_not_trimmed :
  truthy (strip (lit " a")) = true
  ∧ len (lit " a") <= 1000
  ∧ chunk_text [padded_page] 1000 200 = Some [new_chunk (lit " a") 1]
  ∧ text (new_chunk (lit " a") 1) ≠ strip (lit " a").
Proof.
  split; [reflexivity|]. split; [vm_compute; discriminate|].
  split; [reflexivity|]. vm_compute. discriminate.
Qed.

(** ** Windows of a text without boundaries *)

Section NoBoundary.

Lemma is_prefix_take sub (n : nat) (w : str) :
  is_prefix sub (take n w) = true → is_prefix sub w = true.
Proof.
  revert n w. induction sub as [|a sub IH]; intros n w; [reflexivity|].
  destruct n as [|n], w as [|b w]; simpl; try discriminate.
  intros H. apply andb_true_iff in H as [Hab Hrest].
  rewrite Hab. simpl. eapply IH. exact Hrest.
Qed.

Lemma contains_take sub (n : nat) (w : str) :
  contains sub w = false → contains sub (take n w) = false.
Proof.
  revert n. induction w as [|b w IH]; intros n Hw.
  - rewrite take_nil. exact Hw.
  - destruct n as [|n].
    + simpl in *. apply orb_false_iff in Hw as [Hp _].
      destruct sub; [discriminate|reflexivity].
    + cbn [contains] in Hw. apply orb_false_iff in Hw as [Hp Hrest].
      cbn [take contains]. apply orb_false_iff. split.
      * destruct (is_prefix sub (b :: take n w)) eqn:Hq; [|reflexivity].
        apply (is_prefix_take sub (S n) (b :: w)) in Hq. congruence.
      * apply IH. exact Hrest.
Qed.

Lemma contains_drop sub (n : nat) (w : str) :
  contains sub w = false → contains sub (drop n w) = false.
Proof.
  revert w. induction n as [|n IH]; intros w Hw; [exact Hw|].
  destruct w as [|b w]; [exact Hw|].
  cbn [drop]. apply IH.
  cbn [contains] in Hw. apply orb_false_iff in Hw as [_ Hrest]. exact Hrest.
Qed.

Lemma last_occurrence_none sub w idx best :
  contains sub w = false → last_occurrence sub w idx best = best.
Proof.
  revert idx best. induction w as [|b w IH]; intros idx best Hw.
  - simpl in *. apply orb_false_iff in Hw as [Hp _]. rewrite Hp. reflexivity.
  - cbn [contains] in Hw. apply orb_false_iff in Hw as [Hp Hrest].
    cbn [last_occurrence]. rewrite Hp. apply IH. exact Hrest.
Qed.

Lemma rfind_none t sub i j : contains sub t = false → rfind t sub i j = -1.
Proof.
  intros Hno. unfold rfind.
  destruct (_ <? _); [reflexivity|].
  apply last_occurrence_none, contains_take, contains_drop. exact Hno.
Qed.

Variables (t : str) (page_num : Z).

Hypothesis no_boundary :
  Forall (λ sep, contains sep t = false) ([LF; LF] :: sentence_seps).

Lemma window_end_hard_cut chunk_size start :
  window_end t chunk_size start = Z.min (start + chunk_size) (len t).
Proof.
  pose proof no_boundary as Hall. unfold sentence_seps in Hall.
  repeat (apply Forall_cons_1 in Hall as [? Hall]).
  unfold window_end, find_sentence_break, sentence_seps. cbn [fold_left].
  rewrite !rfind_none by assumption. reflexivity.
Qed.

Hypothesis length_2500 : length t = 2500%nat.

(** Once a window has reached the end of the text, the loop moves on by
    one character at a time. *)
Lemma split_loop_tail (n fuel : nat) :
  (n <= 200)%nat → (n <= fuel)%nat →
  split_loop fuel t page_num 1000 200 (2500 - Z.of_nat n)
  = Some (flat_map (λ k, emit t page_num (2300 + Z.of_nat k) 2500)
            (seq (200 - n) n)).
Proof.
  revert fuel. induction n as [|n IH]; intros fuel Hn Hfuel.
  - destruct fuel; simpl; unfold len; rewrite length_2500; reflexivity.
  - destruct fuel as [|fuel]; [lia|].
    cbn [split_loop]. unfold next_start. rewrite !window_end_hard_cut.
    unfold len. rewrite length_2500.
    replace (2500 - Z.of_nat (S n) <? Z.of_nat 2500) with true
      by (symmetry; apply Z.ltb_lt; lia).
    replace (Z.min (2500 - Z.of_nat (S n) + 1000) (Z.of_nat 2500)) with 2500 by lia.
    replace (Z.max (2500 - Z.of_nat (S n) + 1) (2500 - 200))
      with (2500 - Z.of_nat n) by lia.
    rewrite IH by lia.
    replace (200 - n)%nat with (S (200 - S n)) by lia.
    cbn [seq flat_map].
    replace (2300 + Z.of_nat (200 - S n)) with (2500 - Z.of_nat (S n)) by lia.
    reflexivity.
Qed.

Lemma split_loop_unfold (fuel : nat) (start : Z) :
  start < 2500 →
  split_loop (S fuel) t page_num 1000 200 start
  = match split_loop fuel t page_num 1000 200
            (Z.max (start + 1) (Z.min (start + 1000) 2500 - 200)) with
    | Some rest =>
        Some (emit t page_num start (Z.min (start + 1000) 2500) ++ rest)
    | None => None
    end.
Proof.
  intros Hlt. cbn [split_loop]. unfold next_start.
  rewrite !window_end_hard_cut. unfold len. rewrite length_2500.
  change (Z.of_nat 2500) with 2500.
  apply Z.ltb_lt in Hlt. rewrite Hlt. reflexivity.
Qed.

(** The windows of a page of 2500 characters without paragraph break or
    sentence terminator: three hard cuts, then 200 windows that each start
    one character after the last and end at the end of the text. *)
Lemma windows_of_2500_without_boundary (fuel : nat) :
  (203 <= fuel)%nat →
  split_loop fuel t page_num 1000 200 0
  = Some (emit t page_num 0 1000 ++ emit t page_num 800 1800
          ++ emit t page_num 1600 2500
          ++ flat_map (λ k, emit t page_num (2300 + Z.of_nat k) 2500) (seq 0 200)).
Proof.
  intros Hfuel.
  destruct fuel as [|[|[|fuel]]]; [lia|lia|lia|].
  rewrite split_loop_unfold by lia.
  change (Z.max (0 + 1) (Z.min (0 + 1000) 2500 - 200)) with 800.
  rewrite split_loop_unfold by lia.
  change (Z.max (800 + 1) (Z.min (800 + 1000) 2500 - 200)) with 1600.
  rewrite split_loop_unfold by lia.
  change (Z.max (1600 + 1) (Z.min (1600 + 1000) 2500 - 200))
    with (2500 - Z.of_nat 200).
  rewrite (split_loop_tail 200 fuel) by lia.
  reflexivity.
Qed.

(** What the chunker returns for such a page. *)
Lemma chunk_text_2500_without_boundary :
  chunk_text [{| page_text := Some t; page_number := Some page_num |}] 1000 200
  = Some (if truthy (strip t)
          then emit t page_num 0 1000 ++ emit t page_num 800 1800
               ++ emit t page_num 1600 2500
               ++ flat_map (λ k, emit t page_num (2300 + Z.of_nat k) 2500)
                           (seq 0 200)
          else []).
Proof.
  unfold chunk_text. cbn [chunk_pages]. unfold chunk_page.
  change (default [] (page_text {| page_text := Some t;
                                   page_number := Some page_num |})) with t.
  change (default (0 + 1) (page_number {| page_text := Some t;
                                          page_number := Some page_num |}))
    with page_num.
  destruct (truthy (strip t)); [|reflexivity].
  cbn [negb]. unfold len at 1.
  replace (Z.of_nat (length t) <=? 1000) with false
    by (symmetry; apply Z.leb_gt; lia).
  rewrite windows_of_2500_without_boundary by lia.
  rewrite app_nil_r. reflexivity.
Qed.

End NoBoundary.

(** C1, at a page of 2500 letters: the text has no paragraph break and no
    sentence terminator; the first three windows are cut at the hard
    boundary ([0,1000), [800,1800), [1600,2500)), the second one starting
    at 800; but the loop goes on after the window that reaches the end of
    the text, one character further each time, and 203 chunks are emitted. *)
Theorem chunk_text_2500_emits_203 :
  let t := replicate 2500 97%N in
  Forall (λ sep, contains sep t = false) ([LF; LF] :: sentence_seps)
  ∧ window_end t 1000 0 = 1000
  ∧ next_start t 1000 200 0 = 800
  ∧ window_end t 1000 800 = 1800
  ∧ next_start t 1000 200 800 = 1600
  ∧ window_end t 1000 1600 = 2500
  ∧ next_start t 1000 200 1600 = 2300
  ∧ window_end t 1000 2300 = 2500
  ∧ next_start t 1000 200 2300 = 2301
  ∧ ∃ emitted,
      chunk_text [page_2500] 1000 200 = Some emitted
      ∧ length emitted = 203%nat
      ∧ map (λ c, len (text c)) emitted
        = [1000; 1000; 900] ++ map Z.of_nat (rev (seq 1 200)).
Proof.
  cbv zeta.
  split; [repeat constructor; vm_compute; reflexivity|].
  repeat (split; [vm_compute; reflexivity|]).
  eexists. split; [vm_compute; reflexivity|].
  split; vm_compute; reflexivity.
Qed.

(** * Properties of the summarization client *)

Section RetryLoop.

Variables (E : Env) (prompt : str) (max_retries : Z).

Lemma retry_loop_success remaining attempt s summary_text :
  invoke_model E (invoked s) prompt = Completion summary_text →
  retry_loop E prompt max_retries (S remaining) attempt s
  = (Returned (PyStr summary_text), count_call s).
Proof.
  intros H. cbn [retry_loop]. unfold call_endpoint. rewrite H. reflexivity.
Qed.

Lemma retry_loop_backoff remaining attempt s e :
  invoke_model E (invoked s) prompt = Failure e →
  throttled e = true →
  attempt < max_retries - 1 →
  retry_loop E prompt max_retries (S remaining) attempt s
  = retry_loop E prompt max_retries remaining (attempt + 1)
      (record_sleep (2 ^ (attempt + 2)) (count_call s)).
Proof.
  intros H Hthr Hlt. cbn [retry_loop]. unfold call_endpoint. rewrite H.
  rewrite Hthr.
  apply Z.ltb_lt in Hlt. rewrite Hlt. reflexivity.
Qed.

Lemma retry_loop_gives_up remaining attempt s e :
  invoke_model E (invoked s) prompt = Failure e →
  throttled e = false ∨ max_retries - 1 <= attempt →
  retry_loop E prompt max_retries (S remaining) attempt s
  = (Raised e, count_call s).
Proof.
  intros H Hstop. cbn [retry_loop]. unfold call_endpoint. rewrite H.
  destruct Hstop as [Hthr | Hlast].
  - rewrite Hthr. reflexivity.
  - apply Z.ltb_ge in Hlast. rewrite Hlast, andb_false_r. reflexivity.
Qed.

(** The retry loop touches the clock and the call counter only. *)
Lemma retry_loop_frame remaining attempt s r s' :
  retry_loop E prompt max_retries remaining attempt s = (r, s') →
  r ≠ OutOfFuel
  ∧ files s' = files s ∧ opened s' = opened s
  ∧ text_chunks s' = text_chunks s
  ∧ successful_chunks s' = successful_chunks s.
Proof.
  revert attempt s. induction remaining as [|remaining IH]; intros attempt s.
  - cbn. intros [= <- <-]. repeat split; discriminate.
  - cbn [retry_loop]. unfold call_endpoint.
    destruct (invoke_model E (invoked s) prompt) as [summary_text|e].
    + intros [= <- <-]. repeat split; discriminate.
    + destruct (_ && _).
      * intros Hrec. apply IH in Hrec as (? & ? & ? & ? & ?).
        repeat split; assumption.
      * intros [= <- <-]. repeat split; discriminate.
Qed.

End RetryLoop.

(** C5: with [max_retries = 5] and a throttling error at each of the five
    attempts, the call raises the error of the fifth attempt, after five
    calls of the endpoint and exactly four sleeps, of 4, 8, 16 and 32
    seconds ([2 ^ (attempt + 2)] for attempts 0 to 3); nothing is slept
    after the last attempt. *)
Theorem five_throttled_attempts_raise
    (E : Env) (chunk_text : str) (s : State) :
  (∀ k : nat, (k < 5)%nat →
     ∃ e, invoke_model E (invoked s + k) (prompt_of chunk_text) = Failure e
          ∧ throttled e = true) →
  ∃ e s',
    summarize_with_claude E chunk_text 5 s = (Raised e, s')
    ∧ invoke_model E (invoked s + 4) (prompt_of chunk_text) = Failure e
    ∧ invoked s' = (invoked s + 5)%nat
    ∧ slept s' = slept s ++ [4; 8; 16; 32]
    ∧ [4; 8; 16; 32] = map (λ attempt, 2 ^ (attempt + 2)) [0; 1; 2; 3].
Proof.
  intros Hall.
  destruct (Hall 0%nat) as (e0 & H0 & T0); [lia|].
  destruct (Hall 1%nat) as (e1 & H1 & T1); [lia|].
  destruct (Hall 2%nat) as (e2 & H2 & T2); [lia|].
  destruct (Hall 3%nat) as (e3 & H3 & T3); [lia|].
  destruct (Hall 4%nat) as (e4 & H4 & T4); [lia|].
  exists e4. eexists.
  unfold summarize_with_claude. change (Z.to_nat 5) with 5%nat.
  rewrite Nat.add_0_r in H0.
  split.
  - rewrite (retry_loop_backoff _ _ _ _ _ _ e0); [|exact H0|exact T0|lia].
    rewrite (retry_loop_backoff _ _ _ _ _ _ e1);
      [|cbn; rewrite <- H1; f_equal; lia|exact T1|lia].
    rewrite (retry_loop_backoff _ _ _ _ _ _ e2);
      [|cbn; rewrite <- H2; f_equal; lia|exact T2|lia].
    rewrite (retry_loop_backoff _ _ _ _ _ _ e3);
      [|cbn; rewrite <- H3; f_equal; lia|exact T3|lia].
    rewrite (retry_loop_gives_up _ _ _ _ _ _ e4);
      [|cbn; rewrite <- H4; f_equal; lia|right; lia].
    reflexivity.
  - split; [exact H4|]. split; [cbn; lia|].
    split; [|reflexivity].
    cbn. rewrite <- !app_assoc. reflexivity.
Qed.

(** * Properties of the orchestrator *)

Section Orchestrator.

Variables (E : Env) (pdf_path output_filename : str).

Lemma summarize_frame chunk_text s r s' :
  summarize_with_claude E chunk_text 5 s = (r, s') →
  r ≠ OutOfFuel
  ∧ files s' = files s ∧ opened s' = opened s
  ∧ text_chunks s' = text_chunks s
  ∧ successful_chunks s' = successful_chunks s.
Proof. unfold summarize_with_claude. apply retry_loop_frame. Qed.

Lemma process_chunk_step i s chunk r s1 :
  text_chunks s !! i = Some chunk →
  summarize_with_claude E (text chunk) 5 s = (r, s1) →
  process_chunk E pdf_path output_filename i s
  = (Returned tt,
     pace i (length (text_chunks s))
       (after_attempt E pdf_path output_filename i r s1)).
Proof.
  intros Hi Hsum.
  destruct (summarize_frame _ _ _ _ Hsum) as (Hfuel & _).
  unfold process_chunk, bind at 1, get. rewrite Hi.
  unfold bind at 1, try_except, bind at 1. rewrite Hsum.
  unfold after_attempt, pace.
  destruct r as [v|e|]; [| |congruence].
  - unfold bind, assign_summary, increment_successful, modify,
      save_partial_results.
    cbn [opened set_successful set_chunks].
    destruct (open_for_write E (opened s1) output_filename) as [e|];
      destruct (_ <? _); reflexivity.
  - unfold assign_summary, modify, error_summary.
    destruct (_ <? _); reflexivity.
Qed.

End Orchestrator.

Section Run.

Variables (E : Env) (pdf_path output_filename : str).

(** What one iteration keeps: it returns, the list keeps its length, and
    the number of files opened for writing grows with the success counter. *)
Lemma process_chunk_returns i s :
  ∃ s', process_chunk E pdf_path output_filename i s = (Returned tt, s')
    ∧ length (text_chunks s') = length (text_chunks s)
    ∧ Z.of_nat (opened s') - successful_chunks s'
      = Z.of_nat (opened s) - successful_chunks s.
Proof.
  destruct (text_chunks s !! i) as [chunk|] eqn:Hi.
  - destruct (summarize_with_claude E (text chunk) 5 s) as [r s1] eqn:Hsum.
    rewrite (process_chunk_step E pdf_path output_filename i s chunk r s1 Hi Hsum).
    eexists. split; [reflexivity|].
    destruct (summarize_frame _ _ _ _ _ Hsum) as (Hfuel & _ & Hop & Hch & Hsucc).
    unfold pace, after_attempt.
    destruct r as [v|e|]; [| |congruence].
    + cbn [opened set_successful set_chunks].
      destruct (open_for_write E (opened s1) output_filename);
        destruct (_ <? _); cbn; rewrite ?length_alter, Hop, Hch, Hsucc;
        (split; [reflexivity|lia]).
    + destruct (_ <? _); cbn; rewrite ?length_alter, Hop, Hch, Hsucc;
        (split; [reflexivity|lia]).
  - exists s. unfold process_chunk, bind, get. rewrite Hi.
    split; [reflexivity|]. split; reflexivity.
Qed.

Lemma for_each_returns indices s :
  ∃ s', for_each indices (process_chunk E pdf_path output_filename) s
        = (Returned tt, s')
    ∧ length (text_chunks s') = length (text_chunks s)
    ∧ Z.of_nat (opened s') - successful_chunks s'
      = Z.of_nat (opened s) - successful_chunks s.
Proof.
  revert s. induction indices as [|i rest IH]; intros s.
  - exists s. repeat split; reflexivity.
  - destruct (process_chunk_returns i s) as (s1 & Hstep & Hlen1 & Hinv1).
    destruct (IH s1) as (s2 & Hrest & Hlen2 & Hinv2).
    exists s2. cbn [for_each]. unfold bind. rewrite Hstep, Hrest.
    split; [reflexivity|]. split; congruence.
Qed.

End Run.

(** How a run can end. *)
Lemma run_outcome (E : Env) (pdf_path output_dir : str) (s : State) r s' :
  process_stock_report E pdf_path output_dir s = (r, s') →
  match r with
  | Returned path =>
      path = output_filename_of pdf_path output_dir
      ∧ makedirs E output_dir = None
      ∧ is_Some (files s' !! path)
      ∧ Z.of_nat (opened s') = Z.of_nat (opened s) + successful_chunks s'
  | Raised e =>
      (makedirs E output_dir = Some e ∧ s' = s)
      ∨ (makedirs E output_dir = None
         ∧ files s' !! output_filename_of pdf_path output_dir = None
         ∧ exn_type e = "FileNotFoundError"%string
         ∧ Z.of_nat (opened s') = Z.of_nat (opened s) + successful_chunks s')
  | OutOfFuel => False
  end.
Proof.
  unfold process_stock_report.
  destruct (makedirs E output_dir) as [e|] eqn:Hmk.
  { intros [= <- <-]. left. split; reflexivity. }
  destruct (chunk_text_parts (extract_pdf E pdf_path) 1000 200)
    as (parts & Hparts & _).
  rewrite Hparts.
  unfold bind at 1, init_locals, modify.
  set (s0 := set_successful 0 (set_chunks (concat parts) s)).
  unfold bind at 1.
  destruct (for_each_returns E pdf_path (output_filename_of pdf_path output_dir)
              (seq 0 (length (concat parts))) s0) as (s1 & Hloop & _ & Hinv).
  rewrite Hloop. unfold bind, verify_output, ret.
  assert (Hcount : Z.of_nat (opened s1) = Z.of_nat (opened s) + successful_chunks s1).
  { unfold s0 in Hinv. cbn in Hinv. lia. }
  destruct (files s1 !! output_filename_of pdf_path output_dir) as [d|] eqn:Hfile.
  - intros [= <- <-]. split; [reflexivity|]. split; [reflexivity|].
    split; [rewrite Hfile; eexists; reflexivity|exact Hcount].
  - intros [= <- <-]. right. split; [reflexivity|]. split; [exact Hfile|].
    split; [reflexivity|exact Hcount].
Qed.

Lemma five_throttled_attempts_raise_witness :
  ∃ e s',
    summarize_with_claude always_throttled (lit "Revenue grew.") 5 (initial_state ∅)
    = (Raised e, s')
    ∧ invoke_model always_throttled (invoked (initial_state ∅) + 4)
        (prompt_of (lit "Revenue grew.")) = Failure e
    ∧ invoked s' = (invoked (initial_state ∅) + 5)%nat
    ∧ slept s' = slept (initial_state ∅) ++ [4; 8; 16; 32]
    ∧ [4; 8; 16; 32] = map (λ attempt, 2 ^ (attempt + 2)) [0; 1; 2; 3].
Proof.
  apply (five_throttled_attempts_raise always_throttled (lit "Revenue grew.")
           (initial_state ∅)).
  intros k Hk. exists too_many_requests. split; reflexivity.
Defined.

(** The scenario of the specification: throttled twice, answered at the
    third attempt. *)
Example throttled_twice_then_answered :
  let E := {| fitz_open := fun _ => Doc [];
              invoke_model := fun n _ =>
                match n with
                | 0%nat | 1%nat => Failure too_many_requests
                | _ => Completion (lit "Noted.")
                end;
              open_for_write := fun _ _ => None;
              makedirs := fun _ => None |} in
  let run := summarize_with_claude E (lit "Revenue grew.") 5 (initial_state ∅) in
  run.1 = Returned (PyStr (lit "Noted.")) ∧ slept run.2 = [4; 8] ∧ invoked run.2 = 3%nat.
Proof. cbv zeta. repeat split; vm_compute; reflexivity. Qed.

(** * The checkpoint *)

(** C2, as the code has it: the checkpoint file is written only right
    after a chunk whose summarization returned; it is not written before
    the first chunk nor after a chunk whose summarization raised, so over
    a whole run the file is opened for writing exactly as many times as
    the success counter says.  When that write succeeds, the file holds
    the in-memory result record as it is at the end of the iteration. *)
Theorem checkpoint_written_after_successful_chunks
    (E : Env) (pdf_path output_dir : str) :
  let output_filename := output_filename_of pdf_path output_dir in
  (∀ (i : nat) (s : State) chunk r s1,
     text_chunks s !! i = Some chunk →
     summarize_with_claude E (text chunk) 5 s = (r, s1) →
     ∃ s', process_chunk E pdf_path output_filename i s = (Returned tt, s')
       ∧ match r with
         | Returned _ =>
             opened s' = S (opened s)
             ∧ (open_for_write E (opened s) output_filename = None →
                files s' !! output_filename = Some (result_data pdf_path s'))
         | _ => opened s' = opened s ∧ files s' = files s
         end)
  ∧ (∀ (s : State) r s',
       process_stock_report E pdf_path output_dir s = (r, s') →
       makedirs E output_dir = None →
       Z.of_nat (opened s') = Z.of_nat (opened s) + successful_chunks s').
Proof.
  cbv zeta. split.
  - intros i s chunk r s1 Hi Hsum.
    rewrite (process_chunk_step E pdf_path _ i s chunk r s1 Hi Hsum).
    eexists. split; [reflexivity|].
    destruct (summarize_frame _ _ _ _ _ Hsum) as (Hfuel & Hfiles & Hop & Hch & Hsucc).
    unfold pace, after_attempt.
    destruct r as [v|e|]; [| |congruence].
    + cbn [opened set_successful set_chunks]. rewrite Hop.
      destruct (open_for_write E (opened s) _) as [e|] eqn:Hw.
      * destruct (_ <? _); cbn; rewrite ?Hop; (split; [reflexivity|]);
          intros Hnone; discriminate Hnone.
      * destruct (_ <? _); cbn; rewrite ?Hop; (split; [reflexivity|]);
          intros _; rewrite lookup_insert_eq; reflexivity.
    + destruct (_ <? _); cbn; split; assumption.
  - intros s r s' Hrun Hmk. pose proof (run_outcome _ _ _ _ _ _ Hrun) as Hout.
    destruct r as [path|e|].
    + tauto.
    + destruct Hout as [(Hbad & _)|(_ & _ & _ & Hcount)]; [congruence|exact Hcount].
    + contradiction.
Qed.

Lemma checkpoint_written_after_successful_chunks_witness :
  let s := set_successful 0
             (set_chunks [new_chunk (lit "Revenue grew.") 1;
                          new_chunk (lit "Costs fell.") 2] (initial_state ∅)) in
  ∃ s', process_chunk second_chunk_fails q1_pdf q1_json 0 s = (Returned tt, s')
    ∧ opened s' = 1%nat
    ∧ files s' !! q1_json = Some (result_data q1_pdf s').
Proof.
  cbv zeta.
  destruct (checkpoint_written_after_successful_chunks
              second_chunk_fails q1_pdf out_dir) as [Hstep _].
  set (s := set_successful 0
              (set_chunks [new_chunk (lit "Revenue grew.") 1;
                           new_chunk (lit "Costs fell.") 2] (initial_state ∅))).
  destruct (Hstep 0%nat s (new_chunk (lit "Revenue grew.") 1)
              (Returned (PyStr (lit "Revenue is up."))) (count_call s)
              eq_refl eq_refl)
    as (s' & Hrun & Hopened & Hfile).
  exists s'. split; [exact Hrun|]. split; [exact Hopened|].
  apply Hfile. reflexivity.
Defined.

(** C2 as stated fails: when the second of two chunks fails, the run ends
    normally with a checkpoint file that lacks the error summary the
    in-memory record holds; and when every chunk fails, the file is never
    written, not even before summarization begins. *)
Lemma checkpoint_not_rewritten_after_failed_chunk :
  let run := process_stock_report second_chunk_fails q1_pdf out_dir (initial_state ∅) in
  let never := process_stock_report every_chunk_fails q1_pdf out_dir (initial_state ∅) in
  run.1 = Returned q1_json
  ∧ (summary <$> text_chunks run.2 !! 1%nat) = Some (Some (error_summary access_denied))
  ∧ (files run.2 !! q1_json ≫= λ d, summary <$> chunks d !! 1%nat) = Some None
  ∧ files run.2 !! q1_json ≠ Some (result_data q1_pdf run.2)
  ∧ opened never.2 = 0%nat
  ∧ files never.2 !! q1_json = None.
Proof.
  cbv zeta.
  split; [vm_compute; reflexivity|].
  split; [vm_compute; reflexivity|].
  split; [vm_compute; reflexivity|].
  split; [vm_compute; discriminate|].
  split; vm_compute; reflexivity.
Qed.

(** * Failures *)

(** C3, at a run whose only chunk fails: the failure is recorded in the
    chunk's summary and the counter stays at 0, but nothing was written,
    and the read-back at the end of the run raises. *)
Theorem run_raises_when_every_chunk_fails :
  let run := process_stock_report every_chunk_fails q1_pdf out_dir (initial_state ∅) in
  (∃ e, run.1 = Raised e ∧ exn_type e = "FileNotFoundError"%string)
  ∧ text_chunks run.2
    = [set_summary (error_summary access_denied)
         (new_chunk (lit "Revenue grew.") 1)]
  ∧ successful_chunks run.2 = 0
  ∧ invoked run.2 = 1%nat
  ∧ files run.2 !! q1_json = None.
Proof.
  cbv zeta. split.
  - eexists. split; vm_compute; reflexivity.
  - repeat split; vm_compute; reflexivity.
Qed.

(** The scenario of the specification, where a later chunk succeeds: the
    run returns, the counter is 2, and the file holds the three chunks,
    the second one with its error summary. *)
Example middle_chunk_failure_is_recorded :
  let run := process_stock_report middle_chunk_fails q1_pdf out_dir (initial_state ∅) in
  run.1 = Returned q1_json
  ∧ successful_chunks run.2 = 2
  ∧ slept run.2 = [5; 5]
  ∧ files run.2 !! q1_json = Some (result_data q1_pdf run.2)
  ∧ map summary (text_chunks run.2)
    = [Some (PyStr (lit "Noted.")); Some (error_summary access_denied);
       Some (PyStr (lit "Noted."))].
Proof. cbv zeta. repeat split; vm_compute; reflexivity. Qed.







(** * The administrative utility *)

Lemma main_clear_ignores_flags prog action flags s :
  DbUtils.lower action = lit "clear" →
  DbUtils.main (prog :: action :: flags) s = DbUtils.clear_database true s.
Proof.
  intros Hact. unfold DbUtils.main.
  replace (Z.of_nat (length (prog :: action :: flags)) <? 2) with false
    by (symmetry; apply Z.ltb_ge; simpl length; lia).
  cbn [lookup list_lookup]. rewrite Hact. reflexivity.
Qed.

Lemma drop_stock_chunks_tables s :
  DbUtils.tables (DbUtils.drop_stock_chunks s).2
  = DbUtils.tables s ∖ {["stock_chunks"%string]}
  ∧ DbUtils.stdin (DbUtils.drop_stock_chunks s).2 = DbUtils.stdin s.
Proof.
  unfold DbUtils.drop_stock_chunks.
  destruct (bool_decide _) eqn:Hin; cbn.
  - split; reflexivity.
  - apply bool_decide_eq_false in Hin.
    split; [|reflexivity]. apply set_eq. intros name.
    rewrite elem_of_difference, elem_of_singleton. split.
    + intros Hname. split; [exact Hname|]. intros ->. exact (Hin Hname).
    + intros [Hname _]. exact Hname.
Qed.

(** C9, as the code has it: started from the command line, [clear] asks
    its question whatever else is on the command line, and the store is
    deleted only when the answer, in lower case, is ["y"]; no command-line
    flag skips the question.  The question is skipped only by a caller
    that passes [confirm=False] to [clear_database]. *)
Theorem clear_asks_unless_called_without_confirm
    (prog action : str) (flags : list str) (s : DbUtils.State) :
  DbUtils.lower action = lit "clear" →
  DbUtils.main (prog :: action :: flags) s = DbUtils.main [prog; action] s
  ∧ (∀ answer rest,
       DbUtils.stdin s = answer :: rest →
       DbUtils.stdin (DbUtils.main (prog :: action :: flags) s).2 = rest
       ∧ DbUtils.tables (DbUtils.main (prog :: action :: flags) s).2
         = if DbUtils.str_eqb (DbUtils.lower answer) (lit "y")
           then DbUtils.tables s ∖ {["stock_chunks"%string]}
           else DbUtils.tables s)
  ∧ DbUtils.tables (DbUtils.clear_database false s).2
    = DbUtils.tables s ∖ {["stock_chunks"%string]}
  ∧ DbUtils.stdin (DbUtils.clear_database false s).2 = DbUtils.stdin s.
Proof.
  intros Hact.
  rewrite !(main_clear_ignores_flags _ _ _ _ Hact).
  split; [reflexivity|]. split.
  - intros answer rest Hin. unfold DbUtils.clear_database. rewrite Hin.
    destruct (DbUtils.str_eqb _ _); cbn [negb].
    + destruct (drop_stock_chunks_tables
                  {| DbUtils.tables := DbUtils.tables s; DbUtils.stdin := rest |})
        as (Ht & Hs).
      split; [exact Hs|exact Ht].
    + split; reflexivity.
  - unfold DbUtils.clear_database. apply drop_stock_chunks_tables.
Qed.

Lemma clear_asks_unless_called_without_confirm_witness :
  let s := store_with_answer (lit "Y") in
  DbUtils.lower (lit "CLEAR") = lit "clear"
  ∧ DbUtils.main [lit "db_utils.py"; lit "CLEAR"; lit "--yes"] s
    = DbUtils.main [lit "db_utils.py"; lit "CLEAR"] s
  ∧ (∀ answer rest,
       DbUtils.stdin s = answer :: rest →
       DbUtils.stdin
         (DbUtils.main [lit "db_utils.py"; lit "CLEAR"; lit "--yes"] s).2 = rest
       ∧ DbUtils.tables
           (DbUtils.main [lit "db_utils.py"; lit "CLEAR"; lit "--yes"] s).2
         = if DbUtils.str_eqb (DbUtils.lower answer) (lit "y")
           then DbUtils.tables s ∖ {["stock_chunks"%string]}
           else DbUtils.tables s)
  ∧ DbUtils.tables (DbUtils.clear_database false s).2
    = DbUtils.tables s ∖ {["stock_chunks"%string]}
  ∧ DbUtils.stdin (DbUtils.clear_database false s).2 = DbUtils.stdin s.
Proof.
  cbv zeta. split; [reflexivity|].
  apply (clear_asks_unless_called_without_confirm
           (lit "db_utils.py") (lit "CLEAR") [lit "--yes"]
           (store_with_answer (lit "Y"))).
  reflexivity.
Defined.

(** C9 as stated fails: with any flags after [clear], the question is
    still asked; answered with ["n"], the store is left as it was. *)
Lemma clear_has_no_noninteractive_flag :
  let s := store_with_answer (lit "n") in
  (DbUtils.main [lit "db_utils.py"; lit "clear"; lit "--yes"] s).2
  = {| DbUtils.tables := {["stock_chunks"%string]}; DbUtils.stdin := [] |}
  ∧ ∀ flags : list str,
      DbUtils.main (lit "db_utils.py" :: lit "clear" :: flags) s
      = (DbUtils.Done,
         {| DbUtils.tables := {["stock_chunks"%string]}; DbUtils.stdin := [] |}).
Proof.
  cbv zeta. split.
  - reflexivity.
  - intros flags. rewrite main_clear_ignores_flags; reflexivity.
Qed.

(** * Further properties of the chunker *)

Section Windows.

Lemma is_prefix_length sub w :
  is_prefix sub w = true → (length sub <= length w)%nat.
Proof.
  revert w. induction sub as [|a sub IH]; intros w; simpl; [lia|].
  destruct w as [|b w]; [discriminate|].
  intros H. apply andb_true_iff in H as [_ H]. apply IH in H. simpl. lia.
Qed.

Lemma last_occurrence_range sub w idx best :
  let r := last_occurrence sub w idx best in
  r = best ∨ (idx <= r ∧ r + len sub <= idx + len w).
Proof.
  cbv zeta. revert idx best. induction w as [|b w IH]; intros idx best.
  - simpl. destruct sub; simpl; [right; unfold len; simpl; lia|left; reflexivity].
  - cbn [last_occurrence].
    destruct (IH (idx + 1) (if is_prefix sub (b :: w) then idx else best))
      as [Heq | [Hlo Hhi]].
    + rewrite Heq. destruct (is_prefix sub (b :: w)) eqn:Hp; [|left; reflexivity].
      right. apply is_prefix_length in Hp. unfold len. lia.
    + right. unfold len in *. simpl length. lia.
Qed.

(** A position found by [rfind] lies in the searched range, with the
    whole of [sub] before the end of the range. *)
Lemma rfind_range t sub i j :
  let r := rfind t sub i j in
  r = -1 ∨ (adjust_start (len t) i <= r ∧ r + len sub <= adjust_end (len t) j).
Proof.
  cbv zeta. unfold rfind.
  destruct (_ <? _) eqn:Hshort; [left; reflexivity|].
  apply Z.ltb_ge in Hshort.
  set (lo := adjust_start (len t) i) in *.
  set (hi := adjust_end (len t) j) in *.
  destruct (last_occurrence_range sub
              (take (Z.to_nat (hi - lo)) (drop (Z.to_nat lo) t)) lo (-1))
    as [Heq | [Hlo Hhi]]; [left; exact Heq|].
  right. split; [exact Hlo|].
  unfold len in Hhi at 2. rewrite length_take in Hhi.
  unfold len in *. lia.
Qed.

Variables (t : str) (chunk_size : Z).

Lemma find_sentence_break_range search_start e :
  0 <= e <= len t →
  let sb := find_sentence_break t search_start e in
  sb = -1 ∨ sb <= e.
Proof.
  intros He. cbv zeta. unfold find_sentence_break.
  assert (Hgen : ∀ seps acc, acc = -1 ∨ acc <= e →
    let sb := fold_left
      (fun sentence_break sep =>
         let pos := rfind t sep search_start e in
         if negb (pos =? -1) && ((sentence_break =? -1) || (sentence_break <? pos))
         then pos + len sep
         else sentence_break) seps acc in
    sb = -1 ∨ sb <= e).
  { induction seps as [|sep seps IH]; intros acc Hacc; [exact Hacc|].
    cbn [fold_left]. apply IH.
    destruct (negb _ && _) eqn:Hc; [|exact Hacc].
    apply andb_true_iff in Hc as [Hne _].
    apply negb_true_iff, Z.eqb_neq in Hne.
    destruct (rfind_range t sep search_start e) as [Hr | [_ Hr]]; [congruence|].
    right. unfold adjust_end in Hr.
    destruct (len t <? e) eqn:H1; [apply Z.ltb_lt in H1; lia|].
    destruct (e <? 0) eqn:H2; [apply Z.ltb_lt in H2; lia|]. exact Hr. }
  apply Hgen. left. reflexivity.
Qed.

(** Inside the loop a window is not empty, ends within the text and is
    at most [chunk_size] long. *)
Lemma window_end_range start :
  0 < chunk_size → 0 <= start < len t →
  start < window_end t chunk_size start
  ∧ window_end t chunk_size start <= Z.min (start + chunk_size) (len t).
Proof.
  intros Hcs Hstart. unfold window_end.
  set (e := Z.min (start + chunk_size) (len t)).
  assert (He : 0 <= e <= len t) by (unfold e; lia).
  assert (Hse : start < e) by (unfold e; lia).
  destruct (negb _ && _) eqn:Hpar.
  - apply andb_true_iff in Hpar as [Hne Hgt].
    apply negb_true_iff, Z.eqb_neq in Hne. apply Z.ltb_lt in Hgt.
    destruct (rfind_range t [LF; LF] (e - int_fifth chunk_size) e)
      as [Hr | [_ Hr]]; [congruence|].
    unfold adjust_end in Hr.
    destruct (len t <? e) eqn:H1; [apply Z.ltb_lt in H1; lia|].
    destruct (e <? 0) eqn:H2; [apply Z.ltb_lt in H2; lia|].
    unfold len in Hr at 1. simpl length in Hr. lia.
  - destruct (negb (find_sentence_break _ _ _ =? -1) && _) eqn:Hsen; [|lia].
    apply andb_true_iff in Hsen as [Hne Hgt].
    apply negb_true_iff, Z.eqb_neq in Hne. apply Z.ltb_lt in Hgt.
    destruct (find_sentence_break_range (e - int_fifth chunk_size) e He)
      as [Hr | Hr]; [congruence|]. lia.
Qed.

End Windows.

Section ChunkSize.

Lemma lstrip_length (s : str) : (length (lstrip s) <= length s)%nat.
Proof.
  induction s as [|c r IH]; simpl; [lia|].
  destruct (isspace c); simpl; lia.
Qed.

Lemma strip_length (s : str) : (length (strip s) <= length s)%nat.
Proof.
  unfold strip, rstrip. rewrite length_rev.
  etransitivity; [apply lstrip_length|]. rewrite length_rev.
  apply lstrip_length.
Qed.

Lemma slice_length (t : str) i j : 0 <= i <= j → len (slice t i j) <= j - i.
Proof.
  intros Hij. unfold slice, len, clamp_index. rewrite length_take.
  destruct (i <? 0) eqn:Hi; [apply Z.ltb_lt in Hi; lia|].
  destruct (j <? 0) eqn:Hj; [apply Z.ltb_lt in Hj; lia|].
  lia.
Qed.

Variables (t : str) (page_num chunk_size chunk_overlap : Z).
Hypothesis chunk_size_pos : 0 < chunk_size.

Lemma emit_size start :
  0 <= start < len t →
  Forall (λ c, len (text c) <= chunk_size)
         (emit t page_num start (window_end t chunk_size start)).
Proof.
  intros Hstart.
  destruct (window_end_range t chunk_size start chunk_size_pos Hstart) as [Hlo Hhi].
  unfold emit. destruct (truthy _); constructor; [|constructor].
  cbn [text new_chunk].
  pose proof (strip_length (slice t start (window_end t chunk_size start))) as Hs.
  pose proof (slice_length t start (window_end t chunk_size start)) as Hl.
  unfold len in *. lia.
Qed.

Lemma split_loop_size fuel start chunks :
  0 <= start →
  split_loop fuel t page_num chunk_size chunk_overlap start = Some chunks →
  Forall (λ c, len (text c) <= chunk_size) chunks.
Proof.
  revert start chunks. induction fuel as [|fuel IH]; intros start chunks Hstart; simpl.
  - destruct (start <? len t); [discriminate|]. intros [= <-]. constructor.
  - destruct (start <? len t) eqn:Hlt; [|intros [= <-]; constructor].
    apply Z.ltb_lt in Hlt.
    destruct (split_loop fuel _ _ _ _ _) as [rest|] eqn:Hrest; [|discriminate].
    intros [= <-]. apply Forall_app. split.
    + apply emit_size. lia.
    + eapply IH; [|exact Hrest]. unfold next_start. lia.
Qed.

End ChunkSize.

Lemma chunk_page_size i page_data chunk_size chunk_overlap part :
  0 < chunk_size →
  chunk_page i page_data chunk_size chunk_overlap = Some part →
  Forall (λ c, len (text c) <= chunk_size) part.
Proof.
  intros Hcs. unfold chunk_page.
  destruct (negb _); [intros [= <-]; constructor|].
  destruct (_ <=? _) eqn:Hle.
  - intros [= <-]. constructor; [|constructor]. apply Z.leb_le in Hle. exact Hle.
  - apply split_loop_size; [exact Hcs|lia].
Qed.

(** A chunk of the result is a chunk of one of the pages. *)
Lemma chunk_text_member extracted_pages chunk_size chunk_overlap emitted c :
  chunk_text extracted_pages chunk_size chunk_overlap = Some emitted →
  c ∈ emitted →
  ∃ (k : nat) page_data part,
    extracted_pages !! k = Some page_data
    ∧ chunk_page (Z.of_nat k) page_data chunk_size chunk_overlap = Some part
    ∧ c ∈ part.
Proof.
  intros Hrun Hc.
  destruct (chunk_text_parts extracted_pages chunk_size chunk_overlap)
    as (parts & Hparts & Hlen & Hk).
  rewrite Hrun in Hparts. injection Hparts as ->.
  apply list_elem_of_In, in_concat in Hc as (part & Hpart & Hcpart).
  apply list_elem_of_In in Hcpart.
  apply list_elem_of_In, list_elem_of_lookup in Hpart as (k & Hkpart).
  assert (Hlt : (k < length extracted_pages)%nat).
  { rewrite <- Hlen. eapply lookup_lt_Some. exact Hkpart. }
  destruct (lookup_lt_is_Some_2 _ _ Hlt) as (pd & Hpd).
  destruct (Hk k pd Hpd) as (part' & Hpart' & Hchunk).
  assert (part' = part) as -> by congruence.
  exists k, pd, part. split; [exact Hpd|]. split; [exact Hchunk|exact Hcpart].
Qed.

(** X1: with a positive chunk size no chunk is longer than [chunk_size]
    characters, whatever the overlap. *)
Theorem chunks_fit_chunk_size
    (extracted_pages : list Page) (chunk_size chunk_overlap : Z)
    (emitted : list Chunk) (c : Chunk) :
  0 < chunk_size →
  chunk_text extracted_pages chunk_size chunk_overlap = Some emitted →
  c ∈ emitted →
  len (text c) <= chunk_size.
Proof.
  intros Hcs Hrun Hc.
  destruct (chunk_text_member _ _ _ _ _ Hrun Hc)
    as (k & pd & part & _ & Hpage & Hin).
  pose proof (chunk_page_size _ _ _ _ _ Hcs Hpage) as Hall.
  rewrite Forall_forall in Hall. apply Hall. exact Hin.
Qed.

Section Coverage.

Lemma lstrip_keeps (w : str) ch :
  ch ∈ w → isspace ch = false → ch ∈ lstrip w.
Proof.
  intros Hin Hch. induction w as [|c r IH]; [exact Hin|].
  simpl. destruct (isspace c) eqn:Hc; [|exact Hin].
  apply elem_of_cons in Hin as [-> | Hin]; [congruence|].
  apply IH. exact Hin.
Qed.

Lemma elem_of_rev (w : str) ch : ch ∈ rev w ↔ ch ∈ w.
Proof. rewrite !list_elem_of_In. symmetry. apply in_rev. Qed.

Lemma strip_keeps (w : str) ch :
  ch ∈ w → isspace ch = false → ch ∈ strip w.
Proof.
  intros Hin Hch. unfold strip, rstrip.
  apply elem_of_rev, lstrip_keeps; [|exact Hch].
  apply elem_of_rev, lstrip_keeps; assumption.
Qed.

Lemma truthy_elem (w : str) ch : ch ∈ w → truthy w = true.
Proof. destruct w; [intros H; inversion H|reflexivity]. Qed.

Lemma truthy_strip_nonspace (w : str) :
  truthy (strip w) = true →
  ∃ (p : nat) ch, w !! p = Some ch ∧ isspace ch = false.
Proof.
  intros Hne.
  destruct (lstrip w) as [|c r] eqn:Hl.
  - unfold strip in Hne. rewrite Hl in Hne. discriminate.
  - pose proof (lstrip_head w c r Hl) as Hc.
    destruct (lstrip_split w) as (sp & Hsplit & _).
    assert (Hin : c ∈ w).
    { rewrite Hsplit, Hl. apply elem_of_app. right. left. }
    apply list_elem_of_lookup in Hin as (p & Hp).
    exists p, c. split; assumption.
Qed.

Lemma slice_whole (t : str) : slice t 0 (len t) = t.
Proof.
  assert (H0 : clamp_index (len t) 0 = 0)
    by (unfold clamp_index, len; simpl; lia).
  assert (H1 : clamp_index (len t) (len t) = len t).
  { unfold clamp_index, len.
    destruct (_ <? _) eqn:E; [apply Z.ltb_lt in E|]; lia. }
  unfold slice. rewrite H0, H1, Z.sub_0_r. unfold len. rewrite Nat2Z.id.
  change (Z.to_nat 0) with 0%nat. rewrite drop_0. apply take_ge. lia.
Qed.

Lemma slice_lookup (t : str) (start e : Z) (p : nat) ch :
  t !! p = Some ch → 0 <= start <= Z.of_nat p → Z.of_nat p < e →
  ch ∈ slice t start e.
Proof.
  intros Hp Hs He. pose proof (lookup_lt_Some _ _ _ Hp) as Hlt.
  unfold slice, clamp_index, len.
  destruct (start <? 0) eqn:H1; [apply Z.ltb_lt in H1; lia|].
  destruct (e <? 0) eqn:H2; [apply Z.ltb_lt in H2; lia|].
  apply list_elem_of_lookup. exists (p - Z.to_nat start)%nat.
  rewrite lookup_take_lt by lia. rewrite lookup_drop.
  replace (Z.to_nat (start `min` Z.of_nat (length t)) + (p - Z.to_nat start))%nat
    with p by lia.
  exact Hp.
Qed.

Variables (t : str) (page_num chunk_size chunk_overlap : Z).
Hypothesis chunk_size_pos : 0 < chunk_size.
Hypothesis overlap_nonneg : 0 <= chunk_overlap.

Lemma loop_start_nonneg start : loop_start t chunk_size chunk_overlap start → 0 <= start.
Proof.
  induction 1 as [|start _ IH Hlt]; [lia|].
  unfold next_start. lia.
Qed.

(** The next window starts no later than where this one ends. *)
Lemma next_start_le_window_end start :
  0 <= start < len t →
  next_start t chunk_size chunk_overlap start <= window_end t chunk_size start.
Proof.
  intros Hstart.
  destruct (window_end_range t chunk_size start chunk_size_pos Hstart) as [Hlo _].
  unfold next_start. lia.
Qed.

Lemma positions_before_start_covered start :
  loop_start t chunk_size chunk_overlap start →
  ∀ p, 0 <= p < start → p < len t → in_a_window t chunk_size chunk_overlap p.
Proof.
  induction 1 as [|start Hstart IH Hlt]; intros p Hp Hplen; [lia|].
  destruct (Z.lt_ge_cases p start) as [Hbefore | Hafter].
  - apply IH; lia.
  - pose proof (loop_start_nonneg start Hstart) as H0.
    pose proof (next_start_le_window_end start (conj H0 Hlt)) as Hle.
    exists start. split; [exact Hstart|]. split; [exact Hlt|]. lia.
Qed.

Lemma loop_reaches_the_end (n : nat) start :
  loop_start t chunk_size chunk_overlap start → len t - start <= Z.of_nat n →
  ∃ final, loop_start t chunk_size chunk_overlap final ∧ len t <= final.
Proof.
  revert start. induction n as [|n IH]; intros start Hstart Hn.
  - exists start. split; [exact Hstart|lia].
  - destruct (Z.lt_ge_cases start (len t)) as [Hlt | Hge].
    + apply (IH (next_start t chunk_size chunk_overlap start)).
      * constructor; assumption.
      * unfold next_start. lia.
    + exists start. split; [exact Hstart|lia].
Qed.

Lemma every_position_in_a_window p : 0 <= p < len t → in_a_window t chunk_size chunk_overlap p.
Proof.
  intros Hp.
  destruct (loop_reaches_the_end (length t) 0) as (final & Hfinal & Hend).
  - constructor.
  - unfold len. lia.
  - apply (positions_before_start_covered final Hfinal); lia.
Qed.

(** What the loop appends from an iteration on is the end of what it
    appends in all. *)
Lemma split_loop_from start :
  loop_start t chunk_size chunk_overlap start →
  ∀ fuel chunks,
    split_loop fuel t page_num chunk_size chunk_overlap 0 = Some chunks →
    ∃ fuel' before rest,
      split_loop fuel' t page_num chunk_size chunk_overlap start = Some rest
      ∧ chunks = before ++ rest.
Proof.
  induction 1 as [|start Hstart IH Hlt]; intros fuel chunks Hrun.
  - exists fuel, [], chunks. split; [exact Hrun|reflexivity].
  - destruct (IH fuel chunks Hrun) as (fuel' & before & rest & Hrest & ->).
    destruct fuel' as [|fuel']; simpl in Hrest;
      apply Z.ltb_lt in Hlt; rewrite Hlt in Hrest; [discriminate|].
    destruct (split_loop fuel' _ _ _ _ _) as [rest'|] eqn:Hnext; [|discriminate].
    injection Hrest as <-.
    exists fuel', (before ++ emit t page_num start (window_end t chunk_size start)), rest'.
    split; [exact Hnext|]. rewrite <- app_assoc. reflexivity.
Qed.

Lemma window_chunk_emitted start fuel chunks :
  loop_start t chunk_size chunk_overlap start → start < len t →
  split_loop fuel t page_num chunk_size chunk_overlap 0 = Some chunks →
  ∀ c, c ∈ emit t page_num start (window_end t chunk_size start) → c ∈ chunks.
Proof.
  intros Hstart Hlt Hrun c Hc.
  destruct (split_loop_from start Hstart fuel chunks Hrun)
    as (fuel' & before & rest & Hrest & ->).
  destruct fuel' as [|fuel']; simpl in Hrest;
    apply Z.ltb_lt in Hlt; rewrite Hlt in Hrest; [discriminate|].
  destruct (split_loop fuel' _ _ _ _ _) as [rest'|]; [|discriminate].
  injection Hrest as <-.
  apply elem_of_app. right. apply elem_of_app. left. exact Hc.
Qed.

End Coverage.

Lemma visible_character_chunked
    (i : Z) (page_data : Page) (t : str) (chunk_size chunk_overlap : Z)
    (p : nat) (ch : char) :
  0 < chunk_size → 0 <= chunk_overlap →
  page_text page_data = Some t →
  t !! p = Some ch → isspace ch = false →
  ∃ part c start e,
    chunk_page i page_data chunk_size chunk_overlap = Some part
    ∧ c ∈ part
    ∧ 0 <= start <= Z.of_nat p ∧ Z.of_nat p < e <= len t
    ∧ strip (text c) = strip (slice t start e)
    ∧ ch ∈ text c.
Proof.
  intros Hcs Hco Ht Hp Hch.
  assert (Hin : ch ∈ t) by (apply list_elem_of_lookup; eauto).
  assert (Hne : truthy (strip t) = true)
    by (eapply truthy_elem, strip_keeps; eassumption).
  pose proof (lookup_lt_Some _ _ _ Hp) as Hplen.
  destruct (chunk_page_total i page_data chunk_size chunk_overlap) as [part Hpart].
  exists part. revert Hpart. unfold chunk_page. rewrite Ht. cbn [default from_option id].
  rewrite Hne. cbn [negb].
  destruct (len t <=? chunk_size).
  - intros [= <-]. exists (new_chunk t (default (i + 1) (page_number page_data))), 0, (len t).
    split; [reflexivity|]. split; [left|].
    split; [lia|]. split; [unfold len; lia|].
    split; [rewrite slice_whole; reflexivity|exact Hin].
  - intros Hloop.
    destruct (every_position_in_a_window t chunk_size chunk_overlap Hcs Hco (Z.of_nat p))
      as (start & Hstart & Hlt & Hwin); [unfold len; lia|].
    pose proof (loop_start_nonneg t chunk_size chunk_overlap start Hstart) as H0.
    destruct (window_end_range t chunk_size start Hcs (conj H0 Hlt)) as [_ Hend].
    set (e := window_end t chunk_size start) in *.
    assert (Hslice : ch ∈ slice t start e) by (apply (slice_lookup t start e p); [exact Hp|lia|lia]).
    assert (Hkept : ch ∈ strip (slice t start e)) by (apply strip_keeps; assumption).
    exists (new_chunk (strip (slice t start e)) (default (i + 1) (page_number page_data))),
      start, e.
    split; [exact Hloop|]. split.
    + eapply (window_chunk_emitted t _ chunk_size chunk_overlap start _ part Hstart Hlt Hloop).
      fold e. unfold emit. rewrite (truthy_elem _ _ Hkept). left.
    + split; [lia|]. split; [lia|]. cbn [text new_chunk].
      split; [apply strip_idem|exact Hkept].
Qed.

(** X2: with a positive chunk size and a non-negative overlap no visible
    text is lost: every character of a page that is not white space is in
    the text of a chunk emitted for that page, a chunk cut from a window
    of the page that holds the character's position. *)
Theorem every_visible_character_is_chunked
    (i : Z) (page_data : Page) (t : str) (chunk_size chunk_overlap : Z)
    (p : nat) (ch : char) :
  0 < chunk_size → 0 <= chunk_overlap →
  page_text page_data = Some t →
  t !! p = Some ch → isspace ch = false →
  ∃ part c start e,
    chunk_page i page_data chunk_size chunk_overlap = Some part
    ∧ c ∈ part
    ∧ 0 <= start <= Z.of_nat p ∧ Z.of_nat p < e <= len t
    ∧ strip (text c) = strip (slice t start e)
    ∧ ch ∈ text c.
Proof. apply visible_character_chunked. Qed.

Lemma every_visible_character_is_chunked_witness :
  ∃ part c start e,
    chunk_page 0 prose_page 20 4 = Some part
    ∧ c ∈ part
    ∧ 0 <= start <= Z.of_nat 30 ∧ Z.of_nat 30 < e <= len (default [] (page_text prose_page))
    ∧ strip (text c) = strip (slice (default [] (page_text prose_page)) start e)
    ∧ 110%N ∈ text c.
Proof.
  apply (every_visible_character_is_chunked 0 prose_page
           (default [] (page_text prose_page)) 20 4 30 110%N).
  - reflexivity.
  - discriminate.
  - reflexivity.
  - reflexivity.
  - reflexivity.
Defined.

Lemma chunks_fit_chunk_size_witness :
  0 < 20 ∧ len (lit "s fell." ++ [LF; LF] ++ lit "Margins hel") <= 20.
Proof.
  split; [reflexivity|].
  apply (chunks_fit_chunk_size [prose_page] 20 4
           (default [] (chunk_text [prose_page] 20 4))
           (new_chunk (lit "s fell." ++ [LF; LF] ++ lit "Margins hel") 7)).
  - reflexivity.
  - vm_compute. reflexivity.
  - vm_compute. right. left.
Defined.

Lemma chunk_page_blank i page_data chunk_size chunk_overlap :
  0 < chunk_size → 0 <= chunk_overlap →
  chunk_page i page_data chunk_size chunk_overlap = Some [] ↔ blank page_data.
Proof.
  intros Hcs Hco. unfold blank. split.
  - intros Hnone.
    destruct (truthy (strip (default [] (page_text page_data)))) eqn:Hne;
      [|reflexivity].
    destruct (page_text page_data) as [t|] eqn:Ht; [|discriminate Hne].
    cbn [default from_option id] in Hne.
    destruct (truthy_strip_nonspace t Hne) as (p & ch & Hp & Hch).
    destruct (visible_character_chunked i page_data t chunk_size chunk_overlap
                p ch Hcs Hco Ht Hp Hch) as (part & c & _ & _ & Hpart & Hc & _).
    rewrite Hnone in Hpart. injection Hpart as <-. inversion Hc.
  - intros Hblank. unfold chunk_page. rewrite Hblank. reflexivity.
Qed.

(** C10: for a positive chunk size and a non-negative overlap the chunker
    returns a list of chunks for every list of page records, the chunks of
    its records one after the other.  A record without the ["text"] key
    contributes no chunk.  A record without the ["page_number"] key is
    chunked as the same record with its 1-based position in the input as
    page number: its chunks carry that position, and it has chunks as
    soon as its text is not blank. *)
Theorem chunk_text_total_with_missing_fields
    (extracted_pages : list Page) (chunk_size chunk_overlap : Z) :
  0 < chunk_size → 0 <= chunk_overlap →
  ∃ parts : list (list Chunk),
    chunk_text extracted_pages chunk_size chunk_overlap = Some (concat parts)
    ∧ length parts = length extracted_pages
    ∧ ∀ (k : nat) page_data,
        extracted_pages !! k = Some page_data →
        ∃ part,
          parts !! k = Some part
          ∧ chunk_page (Z.of_nat k) page_data chunk_size chunk_overlap = Some part
          ∧ (page_text page_data = None → part = [])
          ∧ (page_number page_data = None →
             chunk_page (Z.of_nat k)
               {| page_text := page_text page_data;
                  page_number := Some (Z.of_nat k + 1) |}
               chunk_size chunk_overlap = Some part
             ∧ Forall (λ c, pages (metadata c) = [Z.of_nat k + 1]
                            ∧ source_page (metadata c) = Z.of_nat k + 1) part
             ∧ (truthy (strip (default [] (page_text page_data))) = true →
                part ≠ [])).
Proof.
  intros Hcs Hco.
  destruct (chunk_text_parts extracted_pages chunk_size chunk_overlap)
    as (parts & Hparts & Hlen & Hall).
  exists parts. split; [exact Hparts|]. split; [exact Hlen|].
  intros k pd Hk.
  destruct (Hall k pd Hk) as (part & Hpart & Hchunk).
  exists part. split; [exact Hpart|]. split; [exact Hchunk|]. split.
  - intros Hnone. unfold chunk_page in Hchunk. rewrite Hnone in Hchunk.
    simpl in Hchunk. congruence.
  - intros Hnone. split; [|split].
    + rewrite <- Hchunk. unfold chunk_page. rewrite Hnone. reflexivity.
    + pose proof (chunk_page_tagged _ _ _ _ _ Hchunk) as Htag.
      rewrite Hnone in Htag. simpl in Htag.
      eapply Forall_impl; [exact Htag|].
      intros c (_ & Hp & Hs). split; assumption.
    + intros Hvisible ->.
      apply (chunk_page_blank (Z.of_nat k) pd chunk_size chunk_overlap Hcs Hco)
        in Hchunk.
      unfold blank in Hchunk. congruence.
Qed.

Lemma chunk_text_total_with_missing_fields_witness :
  let extracted_pages :=
    [{| page_text := None; page_number := Some 9 |};
     {| page_text := Some (lit "Costs fell."); page_number := None |}] in
  ∃ parts : list (list Chunk),
    chunk_text extracted_pages 1000 200 = Some (concat parts)
    ∧ length parts = length extracted_pages
    ∧ ∀ (k : nat) page_data,
        extracted_pages !! k = Some page_data →
        ∃ part,
          parts !! k = Some part
          ∧ chunk_page (Z.of_nat k) page_data 1000 200 = Some part
          ∧ (page_text page_data = None → part = [])
          ∧ (page_number page_data = None →
             chunk_page (Z.of_nat k)
               {| page_text := page_text page_data;
                  page_number := Some (Z.of_nat k + 1) |}
               1000 200 = Some part
             ∧ Forall (λ c, pages (metadata c) = [Z.of_nat k + 1]
                            ∧ source_page (metadata c) = Z.of_nat k + 1) part
             ∧ (truthy (strip (default [] (page_text page_data))) = true →
                part ≠ [])).
Proof.
  cbv zeta.
  apply (chunk_text_total_with_missing_fields
           [{| page_text := None; page_number := Some 9 |};
            {| page_text := Some (lit "Costs fell."); page_number := None |}]
           1000 200).
  - reflexivity.
  - discriminate.
Defined.

Lemma no_chunks_is_all_blank
    (extracted_pages : list Page) (chunk_size chunk_overlap : Z) :
  0 < chunk_size → 0 <= chunk_overlap →
  Forall blank extracted_pages →
  chunk_text extracted_pages chunk_size chunk_overlap = Some [].
Proof.
  intros Hcs Hco Hall.
  destruct (chunk_text_parts extracted_pages chunk_size chunk_overlap)
    as (parts & Hparts & Hlen & Hk).
  rewrite Hparts. f_equal.
  assert (Hparts_nil : Forall (λ part, part = []) parts).
  { apply Forall_lookup. intros k part Hpart.
    assert (Hlt : (k < length extracted_pages)%nat)
      by (rewrite <- Hlen; eapply lookup_lt_Some; exact Hpart).
    destruct (lookup_lt_is_Some_2 _ _ Hlt) as (pd & Hpd).
    destruct (Hk k pd Hpd) as (part' & Hpart' & Hchunk).
    assert (part' = part) as -> by congruence.
    rewrite Forall_lookup in Hall. specialize (Hall k pd Hpd).
    apply (chunk_page_blank (Z.of_nat k) pd chunk_size chunk_overlap Hcs Hco) in Hall.
    congruence. }
  clear -Hparts_nil. induction Hparts_nil as [|part parts -> _ IH]; [reflexivity|].
  simpl. exact IH.
Qed.

(** X3: with a positive chunk size and a non-negative overlap the chunker
    returns no chunk at all exactly when every page is blank (text
    missing, empty or white space only): a page with visible text always
    yields a chunk. *)
Theorem no_chunks_iff_all_pages_blank
    (extracted_pages : list Page) (chunk_size chunk_overlap : Z) :
  0 < chunk_size → 0 <= chunk_overlap →
  chunk_text extracted_pages chunk_size chunk_overlap = Some []
  ↔ Forall blank extracted_pages.
Proof.
  intros Hcs Hco.
  destruct (chunk_text_parts extracted_pages chunk_size chunk_overlap)
    as (parts & Hparts & Hlen & Hk).
  rewrite Hparts. split.
  - intros [= Hnil]. apply Forall_lookup. intros k pd Hpd.
    destruct (Hk k pd Hpd) as (part & Hpart & Hchunk).
    apply (chunk_page_blank (Z.of_nat k) pd chunk_size chunk_overlap Hcs Hco).
    rewrite Hchunk. f_equal.
    destruct part as [|c part]; [reflexivity|].
    assert (Hin : In c (concat parts)).
    { apply in_concat. exists (c :: part). split; [|left; reflexivity].
      apply list_elem_of_In, list_elem_of_lookup. eauto. }
    rewrite Hnil in Hin. destruct Hin.
  - intros Hall. rewrite <- Hparts.
    apply no_chunks_is_all_blank; assumption.
Qed.

Lemma no_chunks_iff_all_pages_blank_witness :
  chunk_text [blank_page; {| page_text := None; page_number := None |}] 1000 200
  = Some []
  ↔ Forall blank [blank_page; {| page_text := None; page_number := None |}].
Proof.
  apply (no_chunks_iff_all_pages_blank
           [blank_page; {| page_text := None; page_number := None |}] 1000 200).
  - reflexivity.
  - discriminate.
Defined.

Lemma chunk_pages_app i l1 l2 chunk_size chunk_overlap :
  chunk_pages i (l1 ++ l2) chunk_size chunk_overlap
  = match chunk_pages i l1 chunk_size chunk_overlap,
          chunk_pages (i + len_pages l1) l2 chunk_size chunk_overlap with
    | Some a, Some b => Some (a ++ b)
    | _, _ => None
    end.
Proof.
  revert i. induction l1 as [|p l1 IH]; intros i; cbn [chunk_pages app].
  - unfold len_pages. simpl. rewrite Z.add_0_r.
    destruct (chunk_pages i l2 chunk_size chunk_overlap); reflexivity.
  - rewrite IH. unfold len_pages. cbn [length].
    replace (i + 1 + Z.of_nat (length l1)) with (i + Z.of_nat (S (length l1))) by lia.
    destruct (chunk_page i p chunk_size chunk_overlap) as [here|]; [|reflexivity].
    destruct (chunk_pages (i + 1) l1 chunk_size chunk_overlap) as [a|]; [|reflexivity].
    destruct (chunk_pages _ l2 chunk_size chunk_overlap) as [b|]; [|reflexivity].
    rewrite app_assoc. reflexivity.
Qed.

Lemma chunk_pages_numbered i j l chunk_size chunk_overlap :
  Forall (λ p, is_Some (page_number p)) l →
  chunk_pages i l chunk_size chunk_overlap = chunk_pages j l chunk_size chunk_overlap.
Proof.
  intros Hall. revert i j. induction Hall as [|p l [n Hn] _ IH]; intros i j.
  - reflexivity.
  - cbn [chunk_pages]. rewrite (IH (i + 1) (j + 1)).
    unfold chunk_page. rewrite Hn. reflexivity.
Qed.

(** X4: pages that carry their page number are chunked independently of
    what comes before them: the chunks of two lists of pages put end to
    end are the chunks of the first followed by the chunks of the second. *)
Theorem chunk_text_app
    (first_pages later_pages : list Page) (chunk_size chunk_overlap : Z) :
  Forall (λ p, is_Some (page_number p)) later_pages →
  ∃ a b,
    chunk_text first_pages chunk_size chunk_overlap = Some a
    ∧ chunk_text later_pages chunk_size chunk_overlap = Some b
    ∧ chunk_text (first_pages ++ later_pages) chunk_size chunk_overlap
      = Some (a ++ b).
Proof.
  intros Hnum. unfold chunk_text. rewrite chunk_pages_app.
  rewrite (chunk_pages_numbered (0 + len_pages first_pages) 0 later_pages _ _ Hnum).
  destruct (chunk_text_parts first_pages chunk_size chunk_overlap) as (pa & Ha & _).
  destruct (chunk_text_parts later_pages chunk_size chunk_overlap) as (pb & Hb & _).
  unfold chunk_text in Ha, Hb. rewrite Ha, Hb.
  exists (concat pa), (concat pb). repeat split; reflexivity.
Qed.

Lemma chunk_text_app_witness :
  ∃ a b,
    chunk_text [padded_page] 20 4 = Some a
    ∧ chunk_text [prose_page; blank_page] 20 4 = Some b
    ∧ chunk_text ([padded_page] ++ [prose_page; blank_page]) 20 4 = Some (a ++ b).
Proof.
  apply (chunk_text_app [padded_page] [prose_page; blank_page] 20 4).
  repeat constructor; eexists; reflexivity.
Defined.

(** * Further properties of the summarization client *)

Section RetryBehaviour.

Variables (E : Env) (prompt : str) (max_retries : Z).

Lemma retry_loop_behaviour (remaining : nat) (attempt : Z) (s : State) r s' :
  0 <= attempt →
  Z.of_nat remaining = max_retries - attempt →
  (1 <= remaining)%nat →
  retry_loop E prompt max_retries remaining attempt s = (r, s') →
  ∃ k : nat,
    attempt + Z.of_nat k < max_retries
    ∧ invoked s' = (invoked s + k + 1)%nat
    ∧ slept s' = slept s ++ map (λ a, 2 ^ (attempt + Z.of_nat a + 2)) (seq 0 k)
    ∧ (∀ a : nat, (a < k)%nat →
         ∃ e, invoke_model E (invoked s + a) prompt = Failure e
              ∧ throttled e = true)
    ∧ match invoke_model E (invoked s + k) prompt with
      | Completion summary_text => r = Returned (PyStr summary_text)
      | Failure e =>
          r = Raised e
          ∧ (throttled e = false ∨ attempt + Z.of_nat k = max_retries - 1)
      end.
Proof.
  revert attempt s.
  induction remaining as [|remaining IH]; intros attempt s Hatt Hrem Hpos; [lia|].
  destruct (invoke_model E (invoked s) prompt) as [summary_text|e] eqn:Hcall.
  - rewrite (retry_loop_success E prompt max_retries remaining attempt s _ Hcall).
    intros [= <- <-]. exists 0%nat.
    rewrite Nat.add_0_r, Hcall. cbn.
    split; [lia|]. split; [lia|]. split; [rewrite app_nil_r; reflexivity|].
    split; [intros a Ha; lia|reflexivity].
  - destruct (throttled e) eqn:Hthr.
    + destruct (Z.lt_ge_cases attempt (max_retries - 1)) as [Hmore | Hlast].
      * rewrite (retry_loop_backoff E prompt max_retries remaining attempt s e
                   Hcall Hthr Hmore).
        intros Hrec.
        apply IH in Hrec as (k & Hk & Hinv & Hslept & Hthrottled & Hlast);
          [|lia|lia|lia].
        cbn [invoked slept record_sleep count_call] in *.
        exists (S k). split; [lia|]. split; [lia|]. split.
        { rewrite Hslept, <- app_assoc. f_equal. cbn [seq map app].
          f_equal; [f_equal; lia|].
          rewrite <- seq_shift, map_map. apply map_ext. intros a. f_equal. lia. }
        split.
        { intros [|a] Ha.
          - exists e. rewrite Nat.add_0_r. split; assumption.
          - destruct (Hthrottled a) as (e' & He' & Ht'); [lia|].
            exists e'. split; [|exact Ht'].
            rewrite <- He'. f_equal. lia. }
        replace (invoked s + S k)%nat with (S (invoked s) + k)%nat by lia.
        destruct (invoke_model E (S (invoked s) + k) prompt);
          [exact Hlast|].
        destruct Hlast as [-> Hwhy]. split; [reflexivity|].
        destruct Hwhy as [Hwhy | Hwhy]; [left; exact Hwhy|right; lia].
      * rewrite (retry_loop_gives_up E prompt max_retries remaining attempt s e
                   Hcall (or_intror Hlast)).
        intros [= <- <-]. exists 0%nat.
        rewrite Nat.add_0_r, Hcall. cbn.
        split; [lia|]. split; [lia|]. split; [rewrite app_nil_r; reflexivity|].
        split; [intros a Ha; lia|]. split; [reflexivity|right; lia].
    + rewrite (retry_loop_gives_up E prompt max_retries remaining attempt s e
                 Hcall (or_introl Hthr)).
      intros [= <- <-]. exists 0%nat.
      rewrite Nat.add_0_r, Hcall. cbn.
      split; [lia|]. split; [lia|]. split; [rewrite app_nil_r; reflexivity|].
      split; [intros a Ha; lia|]. split; [reflexivity|left; exact Hthr].
Qed.

End RetryBehaviour.

Lemma summarize_behaviour (E : Env) (chunk_text : str) (max_retries : Z)
    (s : State) r s' :
  1 <= max_retries →
  summarize_with_claude E chunk_text max_retries s = (r, s') →
  ∃ k : nat,
    Z.of_nat k < max_retries
    ∧ invoked s' = (invoked s + k + 1)%nat
    ∧ slept s' = slept s ++ map (λ a, 2 ^ (Z.of_nat a + 2)) (seq 0 k)
    ∧ (∀ a : nat, (a < k)%nat →
         ∃ e, invoke_model E (invoked s + a) (prompt_of chunk_text) = Failure e
              ∧ throttled e = true)
    ∧ match invoke_model E (invoked s + k) (prompt_of chunk_text) with
      | Completion summary_text => r = Returned (PyStr summary_text)
      | Failure e =>
          r = Raised e
          ∧ (throttled e = false ∨ Z.of_nat k = max_retries - 1)
      end.
Proof.
  intros Hmax Hrun. unfold summarize_with_claude in Hrun.
  apply retry_loop_behaviour in Hrun as (k & Hk & Hinv & Hslept & Hthr & Hlast);
    [|lia|lia|lia].
  exists k. split; [lia|]. split; [exact Hinv|]. split; [exact Hslept|].
  split; [exact Hthr|].
  destruct (invoke_model E (invoked s + k) (prompt_of chunk_text));
    [exact Hlast|].
  destruct Hlast as [-> Hwhy]. split; [reflexivity|].
  destruct Hwhy as [Hwhy | Hwhy]; [left; exact Hwhy|right; lia].
Qed.

(** X5: a call with a retry budget of at least one attempt makes between
    one and [max_retries] requests.  Every request but the last one was
    answered with a throttling error and was followed by a sleep of
    [2 ^ (attempt + 2)] seconds; nothing else is slept.  The last request
    decides the outcome: its summary is returned, or its error is raised,
    the error being either not a throttling error or that of the last
    attempt of the budget. *)
Theorem summarize_retries_only_while_throttled
    (E : Env) (chunk_text : str) (max_retries : Z) (s : State) r s' :
  1 <= max_retries →
  summarize_with_claude E chunk_text max_retries s = (r, s') →
  ∃ k : nat,
    Z.of_nat k < max_retries
    ∧ invoked s' = (invoked s + k + 1)%nat
    ∧ slept s' = slept s ++ map (λ a, 2 ^ (Z.of_nat a + 2)) (seq 0 k)
    ∧ (∀ a : nat, (a < k)%nat →
         ∃ e, invoke_model E (invoked s + a) (prompt_of chunk_text) = Failure e
              ∧ throttled e = true)
    ∧ match invoke_model E (invoked s + k) (prompt_of chunk_text) with
      | Completion summary_text => r = Returned (PyStr summary_text)
      | Failure e =>
          r = Raised e
          ∧ (throttled e = false ∨ Z.of_nat k = max_retries - 1)
      end.
Proof. apply summarize_behaviour. Qed.

Lemma summarize_retries_only_while_throttled_witness :
  let run := summarize_with_claude throttled_twice (lit "Revenue grew.") 5
               (initial_state ∅) in
  ∃ k : nat,
    Z.of_nat k < 5
    ∧ invoked run.2 = (0 + k + 1)%nat
    ∧ slept run.2 = [] ++ map (λ a, 2 ^ (Z.of_nat a + 2)) (seq 0 k)
    ∧ (∀ a : nat, (a < k)%nat →
         ∃ e, invoke_model throttled_twice (0 + a) (prompt_of (lit "Revenue grew."))
              = Failure e
              ∧ throttled e = true)
    ∧ match invoke_model throttled_twice (0 + k) (prompt_of (lit "Revenue grew.")) with
      | Completion summary_text => run.1 = Returned (PyStr summary_text)
      | Failure e =>
          run.1 = Raised e ∧ (throttled e = false ∨ Z.of_nat k = 5 - 1)
      end.
Proof.
  cbv zeta.
  apply (summarize_retries_only_while_throttled throttled_twice
           (lit "Revenue grew.") 5 (initial_state ∅)).
  - discriminate.
  - apply surjective_pairing.
Defined.

(** * Further properties of the orchestrator *)

Section Iteration.

Lemma summary_set_at_alter i v l : summary_set_at i l (alter (set_summary v) i l).
Proof.
  split; [apply length_alter|].
  intros j c Hj. rewrite list_lookup_alter.
  destruct (decide (i = j)) as [->|Hne]; rewrite Hj; cbn.
  - eexists. split; [reflexivity|]. cbn.
    repeat split; [eexists; reflexivity|congruence].
  - exists c. repeat split; congruence.
Qed.

Lemma summary_set_at_trans i l1 l2 l3 :
  summary_set_at i l1 l2 → summary_set_at i l2 l3 → summary_set_at i l1 l3.
Proof.
  intros [Hlen12 H12] [Hlen23 H23]. split; [congruence|].
  intros j c Hj.
  destruct (H12 j c Hj) as (c2 & Hc2 & Ht2 & Hm2 & Hs2 & Ho2).
  destruct (H23 j c2 Hc2) as (c3 & Hc3 & Ht3 & Hm3 & Hs3 & Ho3).
  exists c3. split; [exact Hc3|]. split; [congruence|]. split; [congruence|].
  split; [exact Hs3|]. intros Hne. rewrite (Ho3 Hne). apply Ho2, Hne.
Qed.

Variables (E : Env) (pdf_path output_filename : str).

(** What one iteration does to the chunks and to the counter. *)
Lemma process_chunk_effect (i : nat) (s : State) :
  (i < length (text_chunks s))%nat →
  ∃ s', process_chunk E pdf_path output_filename i s = (Returned tt, s')
    ∧ summary_set_at i (text_chunks s) (text_chunks s')
    ∧ successful_chunks s <= successful_chunks s' <= successful_chunks s + 1.
Proof.
  intros Hi. destruct (lookup_lt_is_Some_2 _ _ Hi) as [chunk Hchunk].
  destruct (summarize_with_claude E (text chunk) 5 s) as [r s1] eqn:Hsum.
  rewrite (process_chunk_step E pdf_path output_filename i s chunk r s1 Hchunk Hsum).
  eexists. split; [reflexivity|].
  destruct (summarize_frame _ _ _ _ _ Hsum) as (Hfuel & _ & _ & Hch & Hsucc).
  unfold pace, after_attempt.
  destruct r as [v|e|]; [| |congruence].
  - cbn [opened set_successful set_chunks text_chunks successful_chunks].
    destruct (open_for_write E (opened s1) output_filename);
      destruct (_ <? _); cbn; rewrite Hch, Hsucc;
      (split; [|lia]);
      try apply summary_set_at_alter;
      (eapply summary_set_at_trans; apply summary_set_at_alter).
  - destruct (_ <? _); cbn; rewrite Hch, Hsucc;
      (split; [apply summary_set_at_alter|lia]).
Qed.

(** What the iterations [a], ..., [a + n - 1] do together. *)
Lemma for_each_effect (n a : nat) (s : State) :
  (a + n <= length (text_chunks s))%nat →
  ∃ s', for_each (seq a n) (process_chunk E pdf_path output_filename) s
        = (Returned tt, s')
    ∧ length (text_chunks s') = length (text_chunks s)
    ∧ (∀ (j : nat) c, text_chunks s !! j = Some c →
         ∃ c', text_chunks s' !! j = Some c'
           ∧ text c' = text c ∧ metadata c' = metadata c
           ∧ ((a <= j < a + n)%nat → is_Some (summary c'))
           ∧ (¬ (a <= j < a + n)%nat → c' = c))
    ∧ successful_chunks s <= successful_chunks s'
      <= successful_chunks s + Z.of_nat n.
Proof.
  revert a s. induction n as [|n IH]; intros a s Hrange.
  - exists s. split; [reflexivity|]. split; [reflexivity|].
    split; [|lia]. intros j c Hj. exists c.
    repeat split; [exact Hj|lia].
  - destruct (process_chunk_effect a s) as (s1 & Hstep & [Hlen1 Hat1] & Hsucc1); [lia|].
    destruct (IH (S a) s1) as (s2 & Hrest & Hlen2 & Hat2 & Hsucc2); [lia|].
    exists s2. cbn [seq for_each]. unfold bind. rewrite Hstep, Hrest.
    split; [reflexivity|]. split; [congruence|]. split; [|lia].
    intros j c Hj.
    destruct (Hat1 j c Hj) as (c1 & Hc1 & Ht1 & Hm1 & Hs1 & Ho1).
    destruct (Hat2 j c1 Hc1) as (c2 & Hc2 & Ht2 & Hm2 & Hs2 & Ho2).
    exists c2. split; [exact Hc2|]. split; [congruence|]. split; [congruence|].
    split.
    + intros Hin. destruct (decide (j = a)) as [->|Hne].
      * rewrite Ho2 by lia. apply Hs1. reflexivity.
      * apply Hs2. lia.
    + intros Hout. rewrite Ho2 by lia. apply Ho1. lia.
Qed.

End Iteration.

Lemma run_effect (E : Env) (pdf_path output_dir : str) (s : State) r s' :
  makedirs E output_dir = None →
  process_stock_report E pdf_path output_dir s = (r, s') →
  ∃ chunked,
    chunk_text (extract_pdf E pdf_path) 1000 200 = Some chunked
    ∧ length (text_chunks s') = length chunked
    ∧ (∀ (j : nat) c, chunked !! j = Some c →
         ∃ c', text_chunks s' !! j = Some c'
           ∧ text c' = text c ∧ metadata c' = metadata c
           ∧ is_Some (summary c'))
    ∧ 0 <= successful_chunks s' <= Z.of_nat (length chunked).
Proof.
  intros Hmk. unfold process_stock_report. rewrite Hmk.
  destruct (chunk_text_parts (extract_pdf E pdf_path) 1000 200)
    as (parts & Hparts & _).
  rewrite Hparts. set (chunked := concat parts).
  unfold bind at 1, init_locals, modify.
  set (s0 := set_successful 0 (set_chunks chunked s)).
  unfold bind at 1.
  destruct (for_each_effect E pdf_path (output_filename_of pdf_path output_dir)
              (length chunked) 0 s0) as (s1 & Hloop & Hlen & Hat & Hsucc);
    [reflexivity|].
  rewrite Hloop. unfold bind, verify_output, ret.
  intros Hrun.
  assert (Hs1 : s' = s1).
  { destruct (files s1 !! output_filename_of pdf_path output_dir);
      injection Hrun as _ <-; reflexivity. }
  rewrite Hs1. exists chunked.
  split; [reflexivity|]. split; [exact Hlen|]. split; [|exact Hsucc].
  intros j c Hj. destruct (Hat j c Hj) as (c' & Hc' & Ht & Hm & Hs & _).
  exists c'. split; [exact Hc'|]. split; [exact Ht|]. split; [exact Hm|].
  apply Hs. apply lookup_lt_Some in Hj. lia.
Qed.

(** X6: when a run gets past the creation of the output directory, the
    chunks it ends with are the chunks the chunker cut from the extracted
    pages, in the same order and with the same text and metadata, and
    every one of them has a summary, be it a summary or an error string. *)
Theorem run_summarizes_every_chunk
    (E : Env) (pdf_path output_dir : str) (s : State) r s' :
  makedirs E output_dir = None →
  process_stock_report E pdf_path output_dir s = (r, s') →
  ∃ chunked,
    chunk_text (extract_pdf E pdf_path) 1000 200 = Some chunked
    ∧ length (text_chunks s') = length chunked
    ∧ ∀ (j : nat) c, chunked !! j = Some c →
        ∃ c', text_chunks s' !! j = Some c'
          ∧ text c' = text c ∧ metadata c' = metadata c
          ∧ is_Some (summary c').
Proof.
  intros Hmk Hrun.
  destruct (run_effect E pdf_path output_dir s r s' Hmk Hrun)
    as (chunked & H1 & H2 & H3 & _).
  exists chunked. split; [exact H1|]. split; [exact H2|exact H3].
Qed.

Lemma run_summarizes_every_chunk_witness :
  let run := process_stock_report second_chunk_fails q1_pdf out_dir (initial_state ∅) in
  ∃ chunked,
    chunk_text (extract_pdf second_chunk_fails q1_pdf) 1000 200 = Some chunked
    ∧ length (text_chunks run.2) = length chunked
    ∧ ∀ (j : nat) c, chunked !! j = Some c →
        ∃ c', text_chunks run.2 !! j = Some c'
          ∧ text c' = text c ∧ metadata c' = metadata c
          ∧ is_Some (summary c').
Proof.
  cbv zeta.
  apply (run_summarizes_every_chunk second_chunk_fails q1_pdf out_dir
           (initial_state ∅)
           (process_stock_report second_chunk_fails q1_pdf out_dir (initial_state ∅)).1).
  - reflexivity.
  - apply surjective_pairing.
Defined.

(** X7: the success counter of a run lies between 0 and the number of
    chunks. *)
Theorem success_counter_bounded
    (E : Env) (pdf_path output_dir : str) (s : State) r s' :
  makedirs E output_dir = None →
  process_stock_report E pdf_path output_dir s = (r, s') →
  0 <= successful_chunks s' <= Z.of_nat (length (text_chunks s')).
Proof.
  intros Hmk Hrun.
  destruct (run_effect E pdf_path output_dir s r s' Hmk Hrun)
    as (chunked & _ & H2 & _ & H4).
  rewrite H2. exact H4.
Qed.

Lemma success_counter_bounded_witness :
  let run := process_stock_report middle_chunk_fails q1_pdf out_dir (initial_state ∅) in
  0 <= successful_chunks run.2 <= Z.of_nat (length (text_chunks run.2)).
Proof.
  cbv zeta.
  apply (success_counter_bounded middle_chunk_fails q1_pdf out_dir (initial_state ∅)
           (process_stock_report middle_chunk_fails q1_pdf out_dir (initial_state ∅)).1).
  - reflexivity.
  - apply surjective_pairing.
Defined.

Section NothingSucceeds.

Variables (E : Env) (pdf_path output_filename : str).

Hypothesis every_request_fails :
  ∀ (n : nat) prompt, ∃ e, invoke_model E n prompt = Failure e.

Lemma summarize_raises chunk_text s :
  ∃ e s1, summarize_with_claude E chunk_text 5 s = (Raised e, s1).
Proof.
  destruct (summarize_with_claude E chunk_text 5 s) as [r s1] eqn:Hsum.
  destruct (summarize_behaviour E chunk_text 5 s r s1) as (k & _ & _ & _ & _ & Hlast);
    [lia|exact Hsum|].
  destruct (every_request_fails (invoked s + k) (prompt_of chunk_text)) as [e He].
  rewrite He in Hlast. destruct Hlast as [-> _]. exists e, s1. reflexivity.
Qed.

Lemma process_chunk_nothing_written i s :
  ∃ s', process_chunk E pdf_path output_filename i s = (Returned tt, s')
    ∧ files s' = files s ∧ opened s' = opened s
    ∧ successful_chunks s' = successful_chunks s.
Proof.
  destruct (text_chunks s !! i) as [chunk|] eqn:Hi.
  - destruct (summarize_raises (text chunk) s) as (e & s1 & Hsum).
    rewrite (process_chunk_step E pdf_path output_filename i s chunk _ s1 Hi Hsum).
    eexists. split; [reflexivity|].
    destruct (summarize_frame _ _ _ _ _ Hsum) as (_ & Hfiles & Hop & _ & Hsucc).
    unfold pace, after_attempt. destruct (_ <? _); cbn; auto.
  - exists s. unfold process_chunk, bind, get. rewrite Hi. auto.
Qed.

Lemma for_each_nothing_written indices s :
  ∃ s', for_each indices (process_chunk E pdf_path output_filename) s
        = (Returned tt, s')
    ∧ files s' = files s ∧ opened s' = opened s
    ∧ successful_chunks s' = successful_chunks s.
Proof.
  revert s. induction indices as [|i rest IH]; intros s.
  - exists s. auto.
  - destruct (process_chunk_nothing_written i s) as (s1 & Hstep & Hf1 & Ho1 & Hs1).
    destruct (IH s1) as (s2 & Hrest & Hf2 & Ho2 & Hs2).
    exists s2. cbn [for_each]. unfold bind. rewrite Hstep, Hrest.
    split; [reflexivity|]. repeat split; congruence.
Qed.

End NothingSucceeds.

Lemma run_nothing_written (E : Env) (pdf_path output_dir : str) (s : State) r s' :
  makedirs E output_dir = None →
  (∀ (n : nat) prompt, ∃ e, invoke_model E n prompt = Failure e) →
  process_stock_report E pdf_path output_dir s = (r, s') →
  files s' = files s
  ∧ opened s' = opened s
  ∧ successful_chunks s' = 0.
Proof.
  intros Hmk Hfail. unfold process_stock_report. rewrite Hmk.
  destruct (chunk_text_parts (extract_pdf E pdf_path) 1000 200)
    as (parts & Hparts & _).
  rewrite Hparts. unfold bind at 1, init_locals, modify.
  set (s0 := set_successful 0 (set_chunks (concat parts) s)).
  unfold bind at 1.
  destruct (for_each_nothing_written E pdf_path
              (output_filename_of pdf_path output_dir) Hfail
              (seq 0 (length (concat parts))) s0) as (s1 & Hloop & Hf & Ho & Hs).
  rewrite Hloop. unfold bind, verify_output, ret.
  destruct (files s1 !! output_filename_of pdf_path output_dir);
    intros [= <- <-]; (split; [exact Hf|]); (split; [exact Ho|exact Hs]).
Qed.

(** X8: when the endpoint fails every request, a run that gets past the
    creation of the output directory writes nothing: the files are as
    they were before the run, no file was opened for writing, and the
    counter is 0. *)
Theorem failed_run_leaves_files_untouched
    (E : Env) (pdf_path output_dir : str) (s : State) r s' :
  makedirs E output_dir = None →
  (∀ (n : nat) prompt, ∃ e, invoke_model E n prompt = Failure e) →
  process_stock_report E pdf_path output_dir s = (r, s') →
  files s' = files s
  ∧ opened s' = opened s
  ∧ successful_chunks s' = 0.
Proof. apply run_nothing_written. Qed.

Lemma failed_run_leaves_files_untouched_witness :
  let s := initial_state {[ q1_json := stale_result ]} in
  let run := process_stock_report every_chunk_fails q1_pdf out_dir s in
  files run.2 = files s
  ∧ opened run.2 = opened s
  ∧ successful_chunks run.2 = 0.
Proof.
  cbv zeta.
  apply (failed_run_leaves_files_untouched every_chunk_fails q1_pdf out_dir
           (initial_state {[ q1_json := stale_result ]})
           (process_stock_report every_chunk_fails q1_pdf out_dir
              (initial_state {[ q1_json := stale_result ]})).1).
  - reflexivity.
  - intros n prompt. exists access_denied. reflexivity.
  - apply surjective_pairing.
Defined.

(** X9: a document without any visible text (or one that cannot be read
    at all) has no chunk: a run that gets past the creation of the output
    directory then calls the endpoint not once, does not sleep and writes
    nothing before its read-back. *)
Theorem run_without_chunks
    (E : Env) (pdf_path output_dir : str) (s : State) :
  makedirs E output_dir = None →
  Forall blank (extract_pdf E pdf_path) →
  ∃ r s',
    process_stock_report E pdf_path output_dir s = (r, s')
    ∧ files s' = files s ∧ opened s' = opened s
    ∧ invoked s' = invoked s ∧ slept s' = slept s
    ∧ text_chunks s' = [] ∧ successful_chunks s' = 0.
Proof.
  intros Hmk Hblank.
  apply (no_chunks_is_all_blank (extract_pdf E pdf_path) 1000 200) in Hblank;
    [|lia|lia].
  unfold process_stock_report. rewrite Hmk, Hblank.
  cbn [length seq for_each]. unfold bind, init_locals, modify, ret, verify_output.
  cbn [files set_successful set_chunks].
  destruct (files s !! output_filename_of pdf_path output_dir);
    eexists; eexists; (split; [reflexivity|]); cbn;
    repeat split; reflexivity.
Qed.

Lemma run_without_chunks_witness :
  ∃ r s',
    process_stock_report cannot_open q1_pdf out_dir (initial_state ∅) = (r, s')
    ∧ files s' = files (initial_state ∅)
    ∧ opened s' = opened (initial_state ∅)
    ∧ invoked s' = invoked (initial_state ∅)
    ∧ slept s' = slept (initial_state ∅)
    ∧ text_chunks s' = [] ∧ successful_chunks s' = 0.
Proof.
  apply (run_without_chunks cannot_open q1_pdf out_dir (initial_state ∅)).
  - reflexivity.
  - constructor.
Defined.

Section EverythingSucceeds.

Variables (E : Env) (pdf_path output_filename : str).

Hypothesis every_request_answered :
  ∀ (n : nat) prompt, ∃ summary_text, invoke_model E n prompt = Completion summary_text.
Hypothesis every_write_succeeds :
  ∀ (n : nat) path, open_for_write E n path = None.




End EverythingSucceeds.



(** * The output path *)

Section Paths.








Lemma replace_from_absent (old new s : str) :
  contains old s = false → replace_from old new s 0 = s.
Proof.
  induction s as [|c s IH]; intros Hno; [reflexivity|].
  cbn [contains] in Hno. apply orb_false_iff in Hno as [Hp Hrest].
  cbn [replace_from]. rewrite Hp. f_equal. apply IH, Hrest.
Qed.


End Paths.


(** X12: a PDF path whose base name does not contain [.pdf] (an upper
    case extension, or none) keeps its name: the checkpoint is written
    under [output_dir] with the base name of the source itself. *)
Theorem output_file_without_pdf_extension (pdf_path output_dir : str) :
  contains (lit ".pdf") (basename pdf_path) = false →
  output_filename_of pdf_path output_dir
  = path_join output_dir (basename pdf_path).
Proof.
  intros Hno. unfold output_filename_of, replace.
  rewrite (replace_from_absent _ _ _ Hno). reflexivity.
Qed.

Lemma output_file_without_pdf_extension_witness :
  contains (lit ".pdf") (basename (lit "reports/Q1.PDF")) = false
  ∧ output_filename_of (lit "reports/Q1.PDF") (lit "reports")
    = lit "reports/Q1.PDF".
Proof.
  split; [reflexivity|].
  apply (output_file_without_pdf_extension (lit "reports/Q1.PDF") (lit "reports")).
  reflexivity.
Defined.

(** * Pages and chunks *)

Lemma read_pages_lookup page_idx page_reads (k : nat) page_data :
  read_pages page_idx page_reads !! k = Some page_data →
  ∃ t, page_reads !! k = Some (Text t)
       ∧ page_data = {| page_text := Some t;
                        page_number := Some (page_idx + Z.of_nat k + 1) |}.
Proof.
  revert page_idx k. induction page_reads as [|[t|e] rest IH]; intros page_idx k; cbn.
  - discriminate.
  - destruct k as [|k]; cbn.
    + intros [= <-]. exists t. split; [reflexivity|]. do 2 f_equal. lia.
    + intros Hk. destruct (IH _ _ Hk) as (t' & Hread & ->).
      exists t'. split; [exact Hread|]. do 2 f_equal. lia.
  - discriminate.
Qed.

(** X13: every chunk of an opened document is cut from a page that was
    read: its page number is the 1-based position of that page in the
    document, whatever the chunk size and the overlap. *)
Theorem chunk_pages_are_document_pages
    (E : Env) (pdf_path : str) (page_reads : list PageRead)
    (chunk_size chunk_overlap : Z) (emitted : list Chunk) (c : Chunk) :
  fitz_open E pdf_path = Doc page_reads →
  chunk_text (extract_pdf E pdf_path) chunk_size chunk_overlap = Some emitted →
  c ∈ emitted →
  ∃ (k : nat) t part,
    page_reads !! k = Some (Text t)
    ∧ chunk_page (Z.of_nat k)
        {| page_text := Some t; page_number := Some (Z.of_nat k + 1) |}
        chunk_size chunk_overlap = Some part
    ∧ c ∈ part
    ∧ pages (metadata c) = [Z.of_nat k + 1]
    ∧ source_page (metadata c) = Z.of_nat k + 1
    ∧ 1 <= Z.of_nat k + 1 <= Z.of_nat (length page_reads).
Proof.
  intros Hdoc Hrun Hc.
  destruct (chunk_text_member _ _ _ _ _ Hrun Hc) as (k & pd & part & Hpd & Hpage & Hin).
  unfold extract_pdf in Hpd. rewrite Hdoc in Hpd.
  destruct (read_pages_lookup 0 page_reads k pd Hpd) as (t & Hread & ->).
  pose proof (chunk_page_tagged _ _ _ _ _ Hpage) as Htag.
  rewrite Forall_forall in Htag. destruct (Htag c Hin) as (_ & Hpages & Hsrc).
  cbn in Hpages, Hsrc.
  exists k, t, part. split; [exact Hread|]. split; [exact Hpage|].
  split; [exact Hin|]. split; [exact Hpages|]. split; [exact Hsrc|].
  apply lookup_lt_Some in Hread. lia.
Qed.

Lemma chunk_pages_are_document_pages_witness :
  ∃ (k : nat) t part,
    [Text (lit "Revenue grew."); Text (lit "Costs fell.")] !! k = Some (Text t)
    ∧ chunk_page (Z.of_nat k)
        {| page_text := Some t; page_number := Some (Z.of_nat k + 1) |}
        1000 200 = Some part
    ∧ new_chunk (lit "Costs fell.") 2 ∈ part
    ∧ pages (metadata (new_chunk (lit "Costs fell.") 2)) = [Z.of_nat k + 1]
    ∧ source_page (metadata (new_chunk (lit "Costs fell.") 2)) = Z.of_nat k + 1
    ∧ 1 <= Z.of_nat k + 1
      <= Z.of_nat (length [Text (lit "Revenue grew."); Text (lit "Costs fell.")]).
Proof.
  apply (chunk_pages_are_document_pages second_chunk_fails q1_pdf
           [Text (lit "Revenue grew."); Text (lit "Costs fell.")] 1000 200
           [new_chunk (lit "Revenue grew.") 1; new_chunk (lit "Costs fell.") 2]).
  - reflexivity.
  - reflexivity.
  - right. left.
Defined.

(** * Further properties of the administrative utility *)

(** X14: whatever the command line and the input, the utility leaves the
    store as it is, unless the action is [clear] (in any letter case) and
    the line read from the input is [y] (in any letter case); then the
    [stock_chunks] table alone is removed.  Without an action it exits
    with code 1 and reads nothing. *)
Theorem store_changes_only_on_confirmed_clear
    (argv : list str) (s : DbUtils.State) :
  (DbUtils.tables (DbUtils.main argv s).2 = DbUtils.tables s
   ∨ ∃ action answer rest,
       argv !! 1%nat = Some action
       ∧ DbUtils.lower action = lit "clear"
       ∧ DbUtils.stdin s = answer :: rest
       ∧ DbUtils.lower answer = lit "y"
       ∧ DbUtils.tables (DbUtils.main argv s).2
         = DbUtils.tables s ∖ {["stock_chunks"%string]})
  ∧ ((length argv < 2)%nat → DbUtils.main argv s = (DbUtils.Exit 1, s)).
Proof.
  split.
  - unfold DbUtils.main.
    destruct (_ <? 2); [left; reflexivity|].
    destruct (argv !! 1%nat) as [action|] eqn:Harg; [|left; reflexivity].
    destruct (DbUtils.str_eqb (DbUtils.lower action) (lit "stats")); [left; reflexivity|].
    destruct (DbUtils.str_eqb (DbUtils.lower action) (lit "clear")) eqn:Hclear;
      [|left; reflexivity].
    apply bool_decide_eq_true_1 in Hclear.
    unfold DbUtils.clear_database.
    destruct (DbUtils.stdin s) as [|answer rest] eqn:Hin; [left; reflexivity|].
    destruct (DbUtils.str_eqb (DbUtils.lower answer) (lit "y")) eqn:Hyes;
      [|left; reflexivity].
    apply bool_decide_eq_true_1 in Hyes. cbn [negb].
    right. exists action, answer, rest.
    split; [reflexivity|]. split; [exact Hclear|]. split; [reflexivity|].
    split; [exact Hyes|].
    apply (drop_stock_chunks_tables
             {| DbUtils.tables := DbUtils.tables s; DbUtils.stdin := rest |}).
  - intros Hshort. unfold DbUtils.main.
    replace (Z.of_nat (length argv) <? 2) with true
      by (symmetry; apply Z.ltb_lt; lia).
    reflexivity.
Qed.

(** * The statistics *)

Section Stats.

Import DbStats.

Lemma unique_elem (column : list str) x : x ∈ unique column ↔ x ∈ column.
Proof.
  induction column as [|y rest IH]; cbn [unique]; [reflexivity|].
  rewrite !elem_of_cons, list_elem_of_filter, IH.
  destruct (decide (x = y)); tauto.
Qed.

Lemma unique_NoDup (column : list str) : NoDup (unique column).
Proof.
  induction column as [|y rest IH]; cbn [unique]; constructor.
  - rewrite list_elem_of_filter. tauto.
  - apply NoDup_filter, IH.
Qed.

Lemma rows_of_absent x (column : list str) : x ∉ column → rows_of x column = 0%nat.
Proof.
  intros Hx. unfold rows_of. induction column as [|y rest IH]; [reflexivity|].
  apply not_elem_of_cons in Hx as [Hne Hx]. rewrite filter_cons.
  destruct (decide (y = x)); [congruence|]. apply IH, Hx.
Qed.

Lemma list_sum_cons (a : nat) (l : list nat) : list_sum (a :: l) = (a + list_sum l)%nat.
Proof. reflexivity. Qed.

Lemma total_rows_without x (sources column : list str) :
  NoDup sources →
  total_rows sources column
  = (total_rows (filter (λ y, y ≠ x) sources) column
     + (if decide (x ∈ sources) then rows_of x column else 0))%nat.
Proof.
  unfold total_rows. induction 1 as [|y sources Hy Hnd IH]; [reflexivity|].
  rewrite filter_cons. cbn [map]; rewrite ?list_sum_cons. rewrite IH.
  destruct (decide (y ≠ x)) as [Hne|Heq].
  - cbn [map]; rewrite ?list_sum_cons.
    destruct (decide (x ∈ sources)) as [Hin|Hout].
    + rewrite decide_True by (right; exact Hin). lia.
    + rewrite decide_False; [lia|].
      intros Hin. apply elem_of_cons in Hin as [->|Hin]; [congruence|exact (Hout Hin)].
  - apply dec_stable in Heq. subst y.
    destruct (decide (x ∈ sources)) as [Hin|_]; [exact (False_ind _ (Hy Hin))|].
    destruct (decide (x ∈ x :: sources)) as [_|Hout]; [lia|].
    exfalso. apply Hout. left.
Qed.

Lemma total_rows_cons x (sources rest : list str) :
  x ∉ sources →
  total_rows sources (x :: rest) = total_rows sources rest.
Proof.
  unfold total_rows. induction sources as [|y sources IH]; intros Hx; [reflexivity|].
  apply not_elem_of_cons in Hx as [Hne Hx]. cbn [map]; rewrite ?list_sum_cons.
  rewrite (IH Hx). f_equal. unfold rows_of. rewrite filter_cons.
  destruct (decide (x = y)); [congruence|reflexivity].
Qed.

Lemma total_rows_unique (column : list str) :
  total_rows (unique column) column = length column.
Proof.
  induction column as [|x rest IH]; [reflexivity|].
  cbn [unique]. unfold total_rows at 1. cbn [map]; rewrite ?list_sum_cons.
  fold (total_rows (filter (λ y, y ≠ x) (unique rest)) (x :: rest)).
  rewrite total_rows_cons by (rewrite list_elem_of_filter; tauto).
  pose proof (total_rows_without x (unique rest) rest (unique_NoDup rest)) as Hsplit.
  rewrite IH in Hsplit.
  assert (Hx : rows_of x (x :: rest) = S (rows_of x rest)).
  { unfold rows_of. rewrite filter_cons, decide_True by reflexivity. reflexivity. }
  rewrite Hx. cbn [length].
  destruct (decide (x ∈ unique rest)) as [Hin|Hout]; [lia|].
  rewrite rows_of_absent in * by (rewrite <- unique_elem; exact Hout). lia.
Qed.

End Stats.

(** X15: in the statistics of a store with a [stock_chunks] table every
    source file of the table has one line, no source file has two, every
    line counts at least one chunk, and the counts of the lines add up to
    the total number of chunks; the number of unique source files is the
    number of lines. *)
Theorem stats_lines_add_up (column : list str) :
  ∃ report,
    DbStats.get_db_stats_report (Some column) = Some report
    ∧ DbStats.total_chunks report = length column
    ∧ DbStats.unique_source_files report = length (DbStats.source_lines report)
    ∧ list_sum (map snd (DbStats.source_lines report)) = DbStats.total_chunks report
    ∧ NoDup (map fst (DbStats.source_lines report))
    ∧ (∀ source, source ∈ column ↔ source ∈ map fst (DbStats.source_lines report))
    ∧ Forall (λ line, (1 <= line.2)%nat ∧ line.2 = DbStats.rows_of line.1 column)
             (DbStats.source_lines report).
Proof.
  eexists. split; [reflexivity|]. cbn.
  rewrite !map_map. cbn. rewrite map_id.
  split; [reflexivity|]. split; [rewrite length_map; reflexivity|].
  split; [apply total_rows_unique|]. split; [apply unique_NoDup|].
  split; [intros source; symmetry; apply unique_elem|].
  apply Forall_forall. intros [source n] Hline.
  apply list_elem_of_fmap in Hline as (u & [= -> ->] & Hu). cbn [fst snd].
  split; [|reflexivity].
  apply (proj1 (unique_elem column u)) in Hu. unfold DbStats.rows_of.
  assert (Hin : u ∈ filter (λ y, y = u) column)
    by (apply list_elem_of_filter; split; [reflexivity|exact Hu]).
  destruct (filter (λ y, y = u) column); [inversion Hin|cbn; lia].
Qed.

(** * The end of a long page *)

Section LastWindow.

Variables (t : str) (page_num chunk_size chunk_overlap : Z).
Hypothesis chunk_size_pos : 0 < chunk_size.
Hypothesis overlap_pos : 1 <= chunk_overlap.
Hypothesis text_nonempty : 0 < len t.

(** The loop does not end before an iteration that starts at the last
    character. *)
Lemma loop_starts_at_last_character :
  loop_start t chunk_size chunk_overlap (len t - 1).
Proof.
  destruct (loop_reaches_the_end t chunk_size chunk_overlap (length t) 0)
    as (final & Hfinal & Hend); [constructor|unfold len; lia|].
  inversion Hfinal as [Hzero | start Hstart Hlt Hnext]; [lia|].
  pose proof (loop_start_nonneg t chunk_size chunk_overlap start Hstart) as H0.
  destruct (window_end_range t chunk_size start chunk_size_pos (conj H0 Hlt))
    as [_ Hhi].
  assert (start = len t - 1) as <-; [|exact Hstart].
  unfold next_start in Hnext. lia.
Qed.

Lemma slice_last_character ch before :
  t = before ++ [ch] → slice t (len t - 1) (len t) = [ch].
Proof.
  intros Ht. unfold slice, clamp_index.
  destruct (len t - 1 <? 0) eqn:H1; [apply Z.ltb_lt in H1; lia|].
  destruct (len t <? 0) eqn:H2; [apply Z.ltb_lt in H2; lia|].
  replace (Z.to_nat (len t `min` len t - (len t - 1) `min` len t)) with 1%nat by lia.
  replace (Z.to_nat ((len t - 1) `min` len t)) with (length before).
  - rewrite Ht, drop_app_length. reflexivity.
  - unfold len. rewrite Ht, length_app. cbn. lia.
Qed.

Lemma split_loop_last_window fuel ch before rest :
  t = before ++ [ch] → isspace ch = false →
  split_loop fuel t page_num chunk_size chunk_overlap (len t - 1) = Some rest →
  rest = [new_chunk [ch] page_num].
Proof.
  intros Ht Hch.
  destruct (window_end_range t chunk_size (len t - 1) chunk_size_pos) as [Hlo Hhi];
    [lia|].
  assert (Hend : window_end t chunk_size (len t - 1) = len t) by lia.
  destruct fuel as [|fuel]; cbn [split_loop].
  - replace (len t - 1 <? len t) with true by (symmetry; apply Z.ltb_lt; lia).
    discriminate.
  - replace (len t - 1 <? len t) with true by (symmetry; apply Z.ltb_lt; lia).
    assert (Hnext : split_loop fuel t page_num chunk_size chunk_overlap
                      (next_start t chunk_size chunk_overlap (len t - 1)) = Some []).
    { destruct fuel; cbn [split_loop];
        replace (next_start t chunk_size chunk_overlap (len t - 1) <? len t)
          with false by (symmetry; apply Z.ltb_ge; unfold next_start; lia);
        reflexivity. }
    rewrite Hnext, Hend. unfold emit.
    rewrite (slice_last_character ch before Ht).
    assert (Hstrip : strip [ch] = [ch]).
    { unfold strip, rstrip. cbn. rewrite Hch. cbn. rewrite Hch. reflexivity. }
    rewrite Hstrip. cbn. intros [= <-]. reflexivity.
Qed.

End LastWindow.

(** X16: with a positive chunk size and an overlap of at least 1, the
    chunks of a page longer than [chunk_size] whose last character is
    visible end with a chunk that is that last character alone: the loop
    goes on, one character at a time, until its window is the last
    character of the page. *)
Theorem long_page_ends_with_its_last_character
    (i : Z) (page_data : Page) (before : str) (ch : char)
    (chunk_size chunk_overlap : Z) :
  0 < chunk_size → 1 <= chunk_overlap →
  page_text page_data = Some (before ++ [ch]) →
  isspace ch = false →
  chunk_size < len (before ++ [ch]) →
  ∃ earlier,
    chunk_page i page_data chunk_size chunk_overlap
    = Some (earlier ++ [new_chunk [ch] (default (i + 1) (page_number page_data))]).
Proof.
  intros Hcs Hco Ht Hch Hlong.
  set (t := before ++ [ch]) in *.
  assert (Hlen : 0 < len t) by lia.
  destruct (chunk_page_total i page_data chunk_size chunk_overlap) as [part Hpart].
  rewrite Hpart. revert Hpart. unfold chunk_page. rewrite Ht.
  cbn [default from_option id].
  assert (Hne : truthy (strip t) = true).
  { apply (truthy_elem _ ch), strip_keeps; [|exact Hch].
    unfold t. apply elem_of_app. right. left. }
  rewrite Hne. cbn [negb].
  replace (len t <=? chunk_size) with false by (symmetry; apply Z.leb_gt; lia).
  intros Hloop.
  destruct (split_loop_from t _ chunk_size chunk_overlap (len t - 1)
              (loop_starts_at_last_character t chunk_size chunk_overlap Hcs Hco Hlen)
              (length t) part Hloop) as (fuel' & earlier & rest & Hrest & ->).
  exists earlier. do 2 f_equal.
  eapply (split_loop_last_window t _ chunk_size chunk_overlap); eauto.
Qed.

Lemma long_page_ends_with_its_last_character_witness :
  ∃ earlier,
    chunk_page 0 prose_page 20 4
    = Some (earlier ++ [new_chunk [46%N] (default (0 + 1) (page_number prose_page))]).
Proof.
  apply (long_page_ends_with_its_last_character 0 prose_page
           (lit "Sales rose. Costs fell." ++ [LF; LF]
            ++ lit "Margins held! Outlook is stable") 46%N 20 4).
  - reflexivity.
  - discriminate.
  - reflexivity.
  - reflexivity.
  - reflexivity.
Defined.

(** * Bounds *)

Lemma emit_at_most_one (t : str) page_num start e :
  (length (emit t page_num start e) <= 1)%nat.
Proof. unfold emit. destruct (truthy _); cbn; lia. Qed.

Lemma split_loop_count (t : str) page_num chunk_size chunk_overlap fuel start chunks :
  split_loop fuel t page_num chunk_size chunk_overlap start = Some chunks →
  Z.of_nat (length chunks) <= Z.max 0 (len t - start).
Proof.
  revert start chunks. induction fuel as [|fuel IH]; intros start chunks; cbn [split_loop].
  - destruct (start <? len t); [discriminate|]. intros [= <-]. cbn. lia.
  - destruct (start <? len t) eqn:Hlt; [|intros [= <-]; cbn; lia].
    apply Z.ltb_lt in Hlt.
    destruct (split_loop fuel _ _ _ _ _) as [rest|] eqn:Hrest; [|discriminate].
    intros [= <-]. apply IH in Hrest. rewrite length_app.
    pose proof (emit_at_most_one t page_num start (window_end t chunk_size start)).
    pose proof (next_start_gt t chunk_size chunk_overlap start). lia.
Qed.

(** X17: the chunks a page yields are at most as many as its text has
    characters, whatever the chunk size and the overlap. *)
Theorem page_chunk_count_bounded
    (i : Z) (page_data : Page) (chunk_size chunk_overlap : Z) (part : list Chunk) :
  chunk_page i page_data chunk_size chunk_overlap = Some part →
  Z.of_nat (length part) <= len (default [] (page_text page_data)).
Proof.
  unfold chunk_page.
  set (t := default [] (page_text page_data)).
  destruct (truthy (strip t)) eqn:Hne; cbn [negb].
  - assert (Hpos : 0 < len t).
    { destruct t; [discriminate Hne|]. unfold len. cbn. lia. }
    destruct (len t <=? chunk_size).
    + intros [= <-]. cbn. lia.
    + intros Hloop. apply split_loop_count in Hloop. lia.
  - intros [= <-]. unfold len. cbn. lia.
Qed.

Lemma page_chunk_count_bounded_witness :
  chunk_page 0 prose_page 20 4 = Some (default [] (chunk_page 0 prose_page 20 4))
  ∧ Z.of_nat (length (default [] (chunk_page 0 prose_page 20 4)))
    <= len (default [] (page_text prose_page)).
Proof.
  split; [vm_compute; reflexivity|].
  apply (page_chunk_count_bounded 0 prose_page 20 4).
  vm_compute. reflexivity.
Defined.

Section Requests.

Variables (E : Env) (pdf_path output_filename : str).

Lemma process_chunk_requests (i : nat) (s : State) :
  (i < length (text_chunks s))%nat →
  ∃ s', process_chunk E pdf_path output_filename i s = (Returned tt, s')
    ∧ length (text_chunks s') = length (text_chunks s)
    ∧ (invoked s + 1 <= invoked s' <= invoked s + 5)%nat.
Proof.
  intros Hi. destruct (lookup_lt_is_Some_2 _ _ Hi) as [chunk Hchunk].
  destruct (summarize_with_claude E (text chunk) 5 s) as [r s1] eqn:Hsum.
  rewrite (process_chunk_step E pdf_path output_filename i s chunk r s1 Hchunk Hsum).
  eexists. split; [reflexivity|].
  destruct (summarize_frame _ _ _ _ _ Hsum) as (Hfuel & _ & _ & Hch & _).
  destruct (summarize_behaviour E (text chunk) 5 s r s1) as (k & Hk & Hinv & _);
    [lia|exact Hsum|].
  unfold pace, after_attempt.
  destruct r as [v|e|]; [| |congruence].
  - cbn [opened set_successful set_chunks].
    destruct (open_for_write E (opened s1) output_filename);
      destruct (_ <? _); cbn; rewrite ?length_alter, Hch; (split; [reflexivity|lia]).
  - destruct (_ <? _); cbn; rewrite ?length_alter, Hch; (split; [reflexivity|lia]).
Qed.

End Requests.

(** The iterations [a], ..., [a + n - 1], with the state at the head of
    each and the state at the end. *)
Lemma for_each_chain (E : Env) (pdf_path output_filename : str)
    (n a : nat) (s : State) :
  (a + n <= length (text_chunks s))%nat →
  ∃ states : list State,
    length states = S n
    ∧ states !! 0%nat = Some s
    ∧ (∃ s', states !! n = Some s'
             ∧ for_each (seq a n) (process_chunk E pdf_path output_filename) s
               = (Returned tt, s')
             ∧ length (text_chunks s') = length (text_chunks s))
    ∧ ∀ j : nat, (j < n)%nat →
        ∃ before after,
          states !! j = Some before ∧ states !! S j = Some after
          ∧ process_chunk E pdf_path output_filename (a + j) before
            = (Returned tt, after)
          ∧ (invoked before + 1 <= invoked after <= invoked before + 5)%nat.
Proof.
  revert a s. induction n as [|n IH]; intros a s Hrange.
  - exists [s]. split; [reflexivity|]. split; [reflexivity|].
    split; [exists s; repeat split; reflexivity|].
    intros j Hj. lia.
  - destruct (process_chunk_requests E pdf_path output_filename a s)
      as (s1 & Hstep & Hlen1 & Hinv1); [lia|].
    destruct (IH (S a) s1) as (states & Hlen & Hhead & (s' & Hlast & Hrun & Hlen') & Hchain);
      [lia|].
    exists (s :: states). split; [cbn; lia|]. split; [reflexivity|]. split.
    + exists s'. split; [exact Hlast|]. split; [|congruence].
      cbn [seq for_each]. unfold bind. rewrite Hstep. exact Hrun.
    + intros [|j] Hj.
      * exists s, s1. rewrite Nat.add_0_r.
        split; [reflexivity|]. split; [exact Hhead|]. split; [exact Hstep|exact Hinv1].
      * destruct (Hchain j) as (before & after & Hb & Ha & Hp & Hi); [lia|].
        exists before, after. split; [exact Hb|]. split; [exact Ha|].
        split; [|exact Hi].
        replace (a + S j)%nat with (S a + j)%nat by lia. exact Hp.
Qed.

(** X18: a run that gets past the creation of the output directory is one
    iteration of the loop for each chunk, in order, each starting in the
    state the one before ended in, and each iteration makes at least one
    and at most five requests to the endpoint. *)
Theorem run_requests_bounded
    (E : Env) (pdf_path output_dir : str) (s : State) r s' :
  makedirs E output_dir = None →
  process_stock_report E pdf_path output_dir s = (r, s') →
  ∃ (chunked : list Chunk) (states : list State),
    chunk_text (extract_pdf E pdf_path) 1000 200 = Some chunked
    ∧ length states = S (length chunked)
    ∧ states !! 0%nat = Some (set_successful 0 (set_chunks chunked s))
    ∧ states !! length chunked = Some s'
    ∧ ∀ j : nat, (j < length chunked)%nat →
        ∃ before after,
          states !! j = Some before ∧ states !! S j = Some after
          ∧ process_chunk E pdf_path (output_filename_of pdf_path output_dir)
              j before = (Returned tt, after)
          ∧ (invoked before + 1 <= invoked after <= invoked before + 5)%nat.
Proof.
  intros Hmk. unfold process_stock_report. rewrite Hmk.
  destruct (chunk_text_parts (extract_pdf E pdf_path) 1000 200)
    as (parts & Hparts & _).
  rewrite Hparts. set (chunked := concat parts).
  unfold bind at 1, init_locals, modify.
  set (s0 := set_successful 0 (set_chunks chunked s)).
  unfold bind at 1.
  destruct (for_each_chain E pdf_path (output_filename_of pdf_path output_dir)
              (length chunked) 0 s0)
    as (states & Hlen & Hhead & (s1 & Hlast & Hloop & _) & Hchain); [reflexivity|].
  rewrite Hloop. unfold bind, verify_output, ret.
  intros Hrun.
  assert (Hs1 : s' = s1).
  { destruct (files s1 !! output_filename_of pdf_path output_dir);
      injection Hrun as _ <-; reflexivity. }
  rewrite Hs1. exists chunked, states.
  split; [reflexivity|]. split; [exact Hlen|]. split; [exact Hhead|].
  split; [exact Hlast|]. exact Hchain.
Qed.

Lemma run_requests_bounded_witness :
  let s := initial_state ∅ in
  let run := process_stock_report middle_chunk_fails q1_pdf out_dir s in
  ∃ (chunked : list Chunk) (states : list State),
    chunk_text (extract_pdf middle_chunk_fails q1_pdf) 1000 200 = Some chunked
    ∧ length states = S (length chunked)
    ∧ states !! 0%nat = Some (set_successful 0 (set_chunks chunked s))
    ∧ states !! length chunked = Some run.2
    ∧ ∀ j : nat, (j < length chunked)%nat →
        ∃ before after,
          states !! j = Some before ∧ states !! S j = Some after
          ∧ process_chunk middle_chunk_fails q1_pdf (output_filename_of q1_pdf out_dir)
              j before = (Returned tt, after)
          ∧ (invoked before + 1 <= invoked after <= invoked before + 5)%nat.
Proof.
  cbv zeta.
  apply (run_requests_bounded middle_chunk_fails q1_pdf out_dir (initial_state ∅)
           (process_stock_report middle_chunk_fails q1_pdf out_dir (initial_state ∅)).1).
  - reflexivity.
  - apply surjective_pairing.
Defined.
